(** * Wordsmith-Collocates: the toast queue and the search handler

    A shallow embedding of the two pieces of logic of the application:

    - [UseToast]: the hook the page imports from [@/hooks/use-toast], that
      is the reducer over the list of toasts, the toast creator with its
      [dismiss]/[update] handle, and the removal effect with its map of
      timeouts, run by React and the host's timers;
    - [HomePage] and [HomePageV2]: the two versions of [handleSearch] in
      [src/app/page.tsx], with the history updater.

    The definitions come first, module by module; the properties follow in
    the sections [Reducer], [Hook] and [Page].

    Conventions.  A JavaScript string is a [string], each character standing
    for one code unit below 256.  An optional property is an [option]
    ([None] is [undefined]).  A property of a [Partial<...>] object is a
    [Field]: the key may be absent, or present with a value that may itself be
    [undefined].  Arrays are lists; [Array.prototype.slice], [map] and [filter]
    are [slice], [List.map] and [List.filter]. *)

From Stdlib Require Import List String Ascii Arith Bool Lia ZArith.
From Stdlib Require Import DecimalString DecimalNat.
Import ListNotations.

Set Implicit Arguments.

(** ** JavaScript helpers *)

Module Js.

(** A key of an object literal that is spread: absent ([None]), or present
    with its value ([Some v], where [v = None] is an explicit [undefined]). *)
Definition Field (X : Type) : Type := option (option X).

(** [{...t, ...patch}] on one property: a key present in the patch wins,
    also when its value is [undefined]. *)
Definition spread {X : Type} (old : option X) (patch : Field X) : option X :=
  match patch with
  | None => old
  | Some v => v
  end.

(** [l.slice(start, stop)] for indexes within [0 .. ]. *)
Definition slice {X : Type} (start stop : nat) (l : list X) : list X :=
  firstn (stop - start) (skipn start l).

(** [n.toString()] for a non-negative integer. *)
Definition toString (n : nat) : string :=
  NilEmpty.string_of_uint (Nat.to_uint n).

(** A string is truthy unless it is empty. *)
Definition truthy (s : string) : bool :=
  match s with
  | EmptyString => false
  | String _ _ => true
  end.

(** The code units that [String.prototype.trim] strips, among those below
    256: tab, line feed, vertical tab, form feed, carriage return, space and
    no-break space. *)
Definition isWhiteSpace (c : ascii) : bool :=
  let n := nat_of_ascii c in
  (n =? 9) || (n =? 10) || (n =? 11) || (n =? 12) || (n =? 13)
  || (n =? 32) || (n =? 160).

Fixpoint trimStart (s : string) : string :=
  match s with
  | EmptyString => EmptyString
  | String c rest => if isWhiteSpace c then trimStart rest else s
  end.

Fixpoint trimEnd (s : string) : string :=
  match s with
  | EmptyString => EmptyString
  | String c rest =>
      match trimEnd rest with
      | EmptyString => if isWhiteSpace c then EmptyString else String c EmptyString
      | kept => String c kept
      end
  end.

Definition trim (s : string) : string := trimEnd (trimStart s).

(** A word made of white space only. *)
Fixpoint blank (s : string) : bool :=
  match s with
  | EmptyString => true
  | String c rest => isWhiteSpace c && blank rest
  end.

(** The double quote, for template literals that quote a word. *)
Definition dquote : string := String (ascii_of_nat 34) EmptyString.

End Js.

(** ** The toast hook *)

Module UseToast.
Import Js.

(** Configuration. *)
Definition TOAST_LIMIT : nat := 1.
Definition TOAST_REMOVE_DELAY : nat := 5000.

(** What [onOpenChange] holds: the closure [createToast] installs, which
    calls the handle's [dismiss] when the component closes, or a callback of
    the caller's own (set through [update]). *)
Inductive OpenChange : Type :=
| DismissOnClose (toastId : string)
| Callback (name : string).

(** [ToasterToast].  [ToastProps] is declared in [components/ui/toast],
    outside these sources; of its properties [variant] (the styling tag) and
    [onOpenChange] are kept, next to [open] which [ToasterToast] redeclares.
    [title], [description] and [action] are display payload, never
    inspected. *)
Record ToasterToast : Type := mkToast {
  id : string;
  title : option string;
  description : option string;
  action : option string;
  variant : option string;
  onOpenChange : option OpenChange;
  open : option bool
}.

(** [ToastPayload = Omit<ToasterToast, "id" | "open">], what a caller of
    [toast] passes.  An [onOpenChange] in it would be overwritten by
    [createToast], so it is not carried. *)
Record ToastPayload : Type := mkPayload {
  payload_title : option string;
  payload_description : option string;
  payload_action : option string;
  payload_variant : option string
}.

(** The properties of a [Partial<ToasterToast>] other than [id]. *)
Record ToastPatch : Type := mkPatch {
  patch_title : Field string;
  patch_description : Field string;
  patch_action : Field string;
  patch_variant : Field string;
  patch_onOpenChange : Field OpenChange;
  patch_open : Field bool
}.

(** [Partial<ToasterToast>], the argument of a handle's [update]. *)
Record PartialToast : Type := mkPartial {
  partial_id : Field string;
  partial_rest : ToastPatch
}.

(** [Partial<ToasterToast> & { id: string }], the payload of UPDATE_TOAST. *)
Record ToastUpdate : Type := mkUpdate {
  update_id : string;
  update_rest : ToastPatch
}.

Inductive Action : Type :=
| ADD_TOAST (toast : ToasterToast)
| UPDATE_TOAST (toast : ToastUpdate)
| DISMISS_TOAST (toastId : option string)
| REMOVE_TOAST (toastId : option string).

Record State : Type := mkState { toasts : list ToasterToast }.

(** [{ ...t, ...action.toast }] *)
Definition merge (t : ToasterToast) (u : ToastUpdate) : ToasterToast :=
  let p := update_rest u in
  {| id := update_id u;
     title := spread (title t) (patch_title p);
     description := spread (description t) (patch_description p);
     action := spread (action t) (patch_action p);
     variant := spread (variant t) (patch_variant p);
     onOpenChange := spread (onOpenChange t) (patch_onOpenChange p);
     open := spread (open t) (patch_open p) |}.

(** [{ ...t, open: false }] *)
Definition close (t : ToasterToast) : ToasterToast :=
  {| id := id t;
     title := title t;
     description := description t;
     action := action t;
     variant := variant t;
     onOpenChange := onOpenChange t;
     open := Some false |}.

(** [t.id === toastId || toastId === undefined] *)
Definition targeted (toastId : option string) (t : ToasterToast) : bool :=
  match toastId with
  | Some i => String.eqb (id t) i
  | None => true
  end.

(** The reducer.  [State] has the single property [toasts], so [...state]
    copies nothing else. *)
Definition reducer (state : State) (action : Action) : State :=
  match action with
  | ADD_TOAST toast =>
      {| toasts := slice 0 TOAST_LIMIT (toast :: toasts state) |}
  | UPDATE_TOAST toast =>
      {| toasts :=
           map (fun t => if String.eqb (id t) (update_id toast)
                         then merge t toast else t)
               (toasts state) |}
  | DISMISS_TOAST toastId =>
      {| toasts :=
           map (fun t => if targeted toastId t then close t else t)
               (toasts state) |}
  | REMOVE_TOAST None => {| toasts := [] |}
  | REMOVE_TOAST (Some toastId) =>
      {| toasts :=
           filter (fun t => negb (String.eqb (id t) toastId)) (toasts state) |}
  end.

(** A run of the reducer over a list of actions, oldest first. *)
Definition reduce (state : State) (actions : list Action) : State :=
  fold_left reducer actions state.

(** *** The hook instance

    What one mounted [useToast()] owns: the reducer state, the two refs, and
    on the host's side the timers armed by [setTimeout] that have neither
    fired nor been cleared.  [clock] counts milliseconds; [hostLog] records
    the hook's traffic with the host's timer facility, oldest first. *)

Record Timer : Type := mkTimer {
  timeoutId : nat;
  due : nat;            (* clock value at which the callback runs *)
  target : string       (* [toast.id] captured by the callback *)
}.

Inductive HostCall : Type :=
| SetTimeout (handle : nat) (toastId : string)
| ClearTimeout (handle : nat)
| Fired (handle : nat) (toastId : string).

Record Hook : Type := mkHook {
  state : State;                              (* React.useReducer(reducer, { toasts: [] }) *)
  idCounterRef : nat;                         (* React.useRef<number>(0) *)
  toastTimeoutsRef : list (string * nat);     (* React.useRef(new Map()), in insertion order *)
  pending : list Timer;
  nextTimeoutId : nat;
  clock : nat;
  hostLog : list HostCall
}.

Definition with_state (s : State) (h : Hook) : Hook :=
  mkHook s (idCounterRef h) (toastTimeoutsRef h) (pending h)
         (nextTimeoutId h) (clock h) (hostLog h).

Definition with_idCounter (n : nat) (h : Hook) : Hook :=
  mkHook (state h) n (toastTimeoutsRef h) (pending h)
         (nextTimeoutId h) (clock h) (hostLog h).

Definition with_timeouts (m : list (string * nat)) (h : Hook) : Hook :=
  mkHook (state h) (idCounterRef h) m (pending h)
         (nextTimeoutId h) (clock h) (hostLog h).

Definition with_clock (n : nat) (h : Hook) : Hook :=
  mkHook (state h) (idCounterRef h) (toastTimeoutsRef h) (pending h)
         (nextTimeoutId h) n (hostLog h).

(** [Map.prototype.has], [set] (of a key known to be absent it appends) and
    [delete]. *)
Definition has (key : string) (m : list (string * nat)) : bool :=
  existsb (fun entry => String.eqb (fst entry) key) m.

Definition set (key : string) (value : nat) (m : list (string * nat))
  : list (string * nat) :=
  if has key m
  then map (fun entry => if String.eqb (fst entry) key
                         then (key, value) else entry) m
  else m ++ [(key, value)].

Definition delete (key : string) (m : list (string * nat))
  : list (string * nat) :=
  filter (fun entry => negb (String.eqb (fst entry) key)) m.

(** [setTimeout(callback, TOAST_REMOVE_DELAY)], the callback closing over
    [toastId]; returns the new timer's identifier. *)
Definition setTimeout (toastId : string) (h : Hook) : nat * Hook :=
  let handle := nextTimeoutId h in
  (handle,
   mkHook (state h) (idCounterRef h) (toastTimeoutsRef h)
          (pending h ++ [mkTimer handle (clock h + TOAST_REMOVE_DELAY) toastId])
          (S handle) (clock h)
          (hostLog h ++ [SetTimeout handle toastId])).

(** [clearTimeout(handle)]: harmless on a timer that is gone. *)
Definition clearTimeout (handle : nat) (h : Hook) : Hook :=
  mkHook (state h) (idCounterRef h) (toastTimeoutsRef h)
         (filter (fun tm => negb (timeoutId tm =? handle)) (pending h))
         (nextTimeoutId h) (clock h)
         (hostLog h ++ [ClearTimeout handle]).

(** [toast.open === false] *)
Definition isFalse (o : option bool) : bool :=
  match o with
  | Some false => true
  | _ => false
  end.

(** One turn of the [forEach] in the effect's body. *)
Definition schedule (h : Hook) (toast : ToasterToast) : Hook :=
  if isFalse (open toast) && negb (has (id toast) (toastTimeoutsRef h))
  then let (handle, h') := setTimeout (id toast) h in
       with_timeouts (set (id toast) handle (toastTimeoutsRef h')) h'
  else h.

(** The effect's body: [state.toasts.forEach(...)]. *)
Definition effect (h : Hook) : Hook :=
  fold_left schedule (toasts (state h)) h.

(** The effect's cleanup: [timeouts.forEach(clearTimeout)].  The entries
    of the map stay. *)
Definition cleanup (h : Hook) : Hook :=
  fold_left (fun h' entry => clearTimeout (snd entry) h') (toastTimeoutsRef h) h.

(** What React does once [state.toasts] is a new array, which it is after
    every action (each case of the reducer builds one): the cleanup of the
    previous run of the effect, then the effect again. *)
Definition rerender (h : Hook) : Hook := effect (cleanup h).

(** [dispatch(action)] from an event handler or a timer, followed by the
    render it causes.  (Several dispatches made by one handler, which React
    renders together, are not modelled: every event below dispatches once.) *)
Definition dispatch (action : Action) (h : Hook) : Hook :=
  rerender (with_state (reducer (state h) action) h).

(** The action a handle's [update(props)] dispatches:
    [{ type: UPDATE_TOAST, toast: { ...props, id } }]. *)
Definition updateAction (id : string) (props : PartialToast) : Action :=
  UPDATE_TOAST {| update_id := id; update_rest := partial_rest props |}.

(** The toast [createToast] adds for [payload] under [id]. *)
Definition newToast (id : string) (payload : ToastPayload) : ToasterToast :=
  {| id := id;
     title := payload_title payload;
     description := payload_description payload;
     action := payload_action payload;
     variant := payload_variant payload;
     onOpenChange := Some (DismissOnClose id);
     open := Some true |}.

(** [createToast(payload, dispatch, idCounterRef)].  Of the handle it
    returns the [id] is kept: its [dismiss()] dispatches
    [DISMISS_TOAST (Some id)] and its [update(props)] dispatches
    [updateAction id props]. *)
Definition createToast (payload : ToastPayload) (h : Hook) : string * Hook :=
  let counter := idCounterRef h + 1 in
  let id := toString counter in
  (id, dispatch (ADD_TOAST (newToast id payload)) (with_idCounter counter h)).

(** A timer expires: the host drops it and runs its callback,
    [dispatch({ type: REMOVE_TOAST, toastId: toast.id })] and
    [timeouts.delete(toast.id)]. *)
Definition expire (tm : Timer) (h : Hook) : Hook :=
  mkHook (reducer (state h) (REMOVE_TOAST (Some (target tm))))
         (idCounterRef h)
         (delete (target tm) (toastTimeoutsRef h))
         (filter (fun tm' => negb (timeoutId tm' =? timeoutId tm)) (pending h))
         (nextTimeoutId h) (clock h)
         (hostLog h ++ [Fired (timeoutId tm) (target tm)]).

(** The callback of a timer, followed by the render its dispatch causes. *)
Definition fire (tm : Timer) (h : Hook) : Hook := rerender (expire tm h).

(** Fires, oldest first, the timers that are due.  A timer armed meanwhile
    is due [TOAST_REMOVE_DELAY] later, so as many rounds as there are armed
    timers are enough. *)
Fixpoint fireDue (rounds : nat) (h : Hook) : Hook :=
  match rounds with
  | 0 => h
  | S rounds' =>
      match find (fun tm => due tm <=? clock h) (pending h) with
      | Some tm => fireDue rounds' (fire tm h)
      | None => h
      end
  end.

(** One millisecond passes. *)
Definition tick (h : Hook) : Hook :=
  let h' := with_clock (clock h + 1) h in
  fireDue (List.length (pending h')) h'.

(** What can happen to a mounted hook, one event per turn of the event
    loop: a call of [toast], of the hook's [dismiss] (with an id it is also
    a handle's [dismiss()] and the [onOpenChange(false)] of [createToast]),
    of a handle's [update], and the passing of a millisecond. *)
Inductive Event : Type :=
| Toast (props : ToastPayload)
| Dismiss (toastId : option string)
| Update (id : string) (props : PartialToast)
| Tick.

Definition step (h : Hook) (e : Event) : Hook :=
  match e with
  | Toast props => snd (createToast props h)
  | Dismiss toastId => dispatch (DISMISS_TOAST toastId) h
  | Update id props => dispatch (updateAction id props) h
  | Tick => tick h
  end.

Definition run (h : Hook) (events : list Event) : Hook :=
  fold_left step events h.

(** The hook after its first render: nothing to schedule. *)
Definition mount : Hook :=
  {| state := {| toasts := [] |};
     idCounterRef := 0;
     toastTimeoutsRef := [];
     pending := [];
     nextTimeoutId := 0;
     clock := 0;
     hostLog := [] |}.

(** The states a mounted hook can be in. *)
Definition reachable (h : Hook) : Prop :=
  exists events, h = run mount events.

(** [n] milliseconds pass with no other event. *)
Definition elapse (n : nat) (h : Hook) : Hook := run h (repeat Tick n).

(** A removal timer is armed for [toastId]. *)
Definition timerPending (toastId : string) (h : Hook) : bool :=
  existsb (fun tm => String.eqb (target tm) toastId) (pending h).

(** The toasts of the list under [toastId]. *)
Definition lookup (toastId : string) (s : State) : list ToasterToast :=
  filter (fun t => String.eqb (id t) toastId) (toasts s).

(** A call that arms or fires a timer for [toastId]. *)
Definition concerns (toastId : string) (c : HostCall) : bool :=
  match c with
  | SetTimeout _ i => String.eqb i toastId
  | Fired _ i => String.eqb i toastId
  | ClearTimeout _ => false
  end.

(** *** Invariants of a mounted hook *)

(** [i] is an id [createToast] has handed out. *)
Definition issued (h : Hook) (i : string) : Prop :=
  exists n, i = toString n /\ 1 <= n <= idCounterRef h.

(** What holds of every state a mounted hook reaches: the ids of the toasts
    and the keys of the map were handed out by [createToast]; every armed
    timer is recorded in the map under its toast's id; the map has one entry
    per key; and neither the list nor the armed timers outgrow
    [TOAST_LIMIT]. *)
Record wf (h : Hook) : Prop := mkWf {
  wf_toasts : Forall (fun t => issued h (id t)) (toasts (state h));
  wf_keys : Forall (fun entry => issued h (fst entry)) (toastTimeoutsRef h);
  wf_recorded :
    Forall (fun tm => In (target tm, timeoutId tm) (toastTimeoutsRef h)) (pending h);
  wf_one_entry : NoDup (map fst (toastTimeoutsRef h));
  wf_limit : List.length (toasts (state h)) <= TOAST_LIMIT;
  wf_timers : List.length (pending h) <= TOAST_LIMIT
}.

(** [update({ ..., open: true })] on the handle of [toastId]. *)
Definition reopens (toastId : string) (e : Event) : bool :=
  match e with
  | Update i props =>
      String.eqb i toastId &&
      match patch_open (partial_rest props) with
      | Some (Some true) => true
      | _ => false
      end
  | _ => false
  end.

(** Of a later state [h] with respect to an earlier [h0]: no toast and no
    armed timer of [h] is for [toastId], and no call to the host since [h0]
    armed or fired a timer for it. *)
Definition untouched (toastId : string) (h0 h : Hook) : Prop :=
  Forall (fun t => id t <> toastId) (toasts (state h))
  /\ Forall (fun tm => target tm <> toastId) (pending h)
  /\ exists calls,
       hostLog h = hostLog h0 ++ calls
       /\ existsb (concerns toastId) calls = false.

(** [update({ open: true })], and the pair of the id and the flag of a toast. *)
Definition openTrue : PartialToast :=
  {| partial_id := None;
     partial_rest := mkPatch None None None None None (Some (Some true)) |}.

Definition flag (t : ToasterToast) : string * option bool := (id t, open t).

(** The timers the hook has armed so far, oldest first. *)
Definition armed (h : Hook) : list HostCall :=
  filter (fun c => match c with SetTimeout _ _ => true | _ => false end)
         (hostLog h).

(** The payload of the specification's first scenario. *)
Definition pleaseEnterAWord : ToastPayload :=
  {| payload_title := Some "Error"%string;
     payload_description := Some "Please enter a word"%string;
     payload_action := None;
     payload_variant := None |}.

(** [update({ title: "Retry" })]: a patch that leaves [open] out. *)
Definition retitle : PartialToast :=
  {| partial_id := None;
     partial_rest := mkPatch (Some (Some "Retry"%string)) None None None None None |}.

End UseToast.

(** ** src/app/page.tsx *)

Module HomePage.
Import Js.
Import UseToast.

Local Open Scope string_scope.

(** One entry of the analysis.  [frequency] is a number the page only
    displays; it is kept as an integer. *)
Record Collocation : Type := mkCollocation {
  collocate : string;
  frequency : Z;
  exampleSentences : list string
}.

(** [AnalyzeCollocationsOutput].  The handler guards against a missing
    [collocations], so the property is optional here. *)
Record AnalyzeCollocationsOutput : Type := mkOutput {
  output_collocations : option (list Collocation)
}.

(** What [catch (error: any)] receives: an object whose [message] may be
    missing. *)
Record Failure : Type := mkFailure { message : option string }.

(** How the awaited call [analyzeCollocations(...)] settles. *)
Inductive Settled : Type :=
| Fulfilled (analysisResult : option AnalyzeCollocationsOutput)
| Rejected (error : Failure).

(** The state of the [Home] component. *)
Record Home : Type := mkHome {
  word : string;
  collocations : list Collocation;
  history : list string;
  isLoading : bool
}.

(** A run of the handler: the component's state, the payloads passed to
    [toast] and the words sent to the collocation service, oldest first. *)
Record Run : Type := mkRun {
  home : Home;
  toasted : list ToastPayload;
  requests : list string
}.

(** State passing for the handler's statements. *)
Definition M (A : Type) : Type := Run -> A * Run.

Definition ret {A : Type} (a : A) : M A := fun r => (a, r).

Definition bind {A B : Type} (m : M A) (k : A -> M B) : M B :=
  fun r => let (a, r') := m r in k a r'.

Notation "x <- m ;; k" := (bind m (fun x => k))
  (at level 61, m at next level, right associativity).
Notation "m ;; k" := (bind m (fun _ => k))
  (at level 61, right associativity).

Definition getWord : M string := fun r => (word (home r), r).

Definition setWord (w : string) : M unit :=
  fun r => (tt, mkRun (mkHome w (collocations (home r)) (history (home r))
                              (isLoading (home r)))
                      (toasted r) (requests r)).

Definition setCollocations (cs : list Collocation) : M unit :=
  fun r => (tt, mkRun (mkHome (word (home r)) cs (history (home r))
                              (isLoading (home r)))
                      (toasted r) (requests r)).

Definition setEmptyCollocations : M unit := setCollocations [].

(** [setHistory(updater)]: the updater receives the stored history. *)
Definition setHistory (updater : list string -> list string) : M unit :=
  fun r => (tt, mkRun (mkHome (word (home r)) (collocations (home r))
                              (updater (history (home r))) (isLoading (home r)))
                      (toasted r) (requests r)).

Definition setIsLoading (b : bool) : M unit :=
  fun r => (tt, mkRun (mkHome (word (home r)) (collocations (home r))
                              (history (home r)) b)
                      (toasted r) (requests r)).

Definition toast (payload : ToastPayload) : M unit :=
  fun r => (tt, mkRun (home r) (toasted r ++ [payload]) (requests r)).

(** [await analyzeCollocations({ word: input })], which settles as
    [settled].  The handler is followed from the call to its end in one go:
    what the user does while the call is pending is outside the model, and so
    is what [console.error] prints. *)
Definition analyzeCollocations (settled : Settled) (input : string) : M Settled :=
  fun r => (settled, mkRun (home r) (toasted r) (requests r ++ [input])).

(** The updater passed to [setHistory]:
    [[w, ...prevHistory.filter((x) => x !== w)].slice(0, 5)]. *)
Definition recordSearch (w : string) (prevHistory : list string) : list string :=
  slice 0 5 (w :: filter (fun x => negb (String.eqb x w)) prevHistory).

(** [!analysisResult?.collocations || analysisResult.collocations.length === 0]:
    the collocations when there are some. *)
Definition found (analysisResult : option AnalyzeCollocationsOutput)
  : option (list Collocation) :=
  match analysisResult with
  | Some {| output_collocations := Some (c :: cs) |} => Some (c :: cs)
  | _ => None
  end.

(** [error.message || fallback] *)
Definition messageOr (error : Failure) (fallback : string) : string :=
  match message error with
  | Some m => if truthy m then m else fallback
  | None => fallback
  end.

Definition quoted (w : string) : string := dquote ++ w ++ dquote.

(** The notification for a blank word, the same in both versions. *)
Definition validationError : ToastPayload :=
  {| payload_title := Some "Error";
     payload_description := Some "Please enter a word to search for.";
     payload_action := None;
     payload_variant := Some "destructive" |}.

(** The notification of the first version for a failed lookup. *)
Definition lookupError (error : Failure) : ToastPayload :=
  {| payload_title := Some "Error";
     payload_description :=
       Some (messageOr error "Failed to analyze collocations. Please try again.");
     payload_action := None;
     payload_variant := Some "destructive" |}.

(** [handleSearch], first version of the page.  The early [return]s are the
    branches that end without further statements; the [finally] block closes
    every branch that entered the [try]. *)
Definition handleSearch (settled : Settled) : M unit :=
  w <- getWord ;;
  let trimmedWord := trim w in
  if negb (truthy trimmedWord) then
    toast validationError
  else
    setIsLoading true ;;
    outcome <- analyzeCollocations settled trimmedWord ;;
    match outcome with
    | Fulfilled analysisResult =>
        match found analysisResult with
        | None =>
            toast {| payload_title := Some "No Collocations Found";
                     payload_description :=
                       Some ("No collocations found for the word "
                             ++ quoted trimmedWord ++ ".");
                     payload_action := None;
                     payload_variant := Some "default" |} ;;
            setEmptyCollocations
        | Some cs =>
            setCollocations cs ;;
            setHistory (recordSearch trimmedWord) ;;
            toast {| payload_title := Some "Success";
                     payload_description :=
                       Some ("Collocations found for " ++ quoted trimmedWord ++ ".");
                     payload_action := None;
                     payload_variant := None |}
        end
    | Rejected error =>
        toast (lookupError error) ;;
        setEmptyCollocations
    end ;;
    setIsLoading false.

(** The user types [w] and searches; the call settles as [settled]. *)
Definition search (r : Run) (query : string * Settled) : Run :=
  snd ((setWord (fst query) ;; handleSearch (snd query)) r).

Definition session (r : Run) (queries : list (string * Settled)) : Run :=
  fold_left search queries r.

(** A lookup that succeeds with at least one collocation for a word that is
    not blank. *)
Definition successful (query : string * Settled) : bool :=
  truthy (trim (fst query)) &&
  match snd query with
  | Fulfilled analysisResult =>
      match found analysisResult with Some _ => true | None => false end
  | Rejected _ => false
  end.

(** The page as it first renders, before anything is read from storage. *)
Definition initial : Run :=
  {| home := {| word := EmptyString; collocations := []; history := [];
                isLoading := false |};
     toasted := [];
     requests := [] |}.

(** The data of the specification's scenarios. *)
Definition coffee : Collocation :=
  {| collocate := "coffee"; frequency := 12;
     exampleSentences := ["I need strong coffee."] |}.

Definition withCoffee : Settled :=
  Fulfilled (Some {| output_collocations := Some [coffee] |}).

Definition unavailable : Failure := {| message := Some "Service unavailable" |}.

(** The most recent distinct words of [words] (oldest first), latest first,
    at most five: what the history is meant to hold. *)
Definition recentFirst (words : list string) : list string :=
  firstn 5 (rev (nodup string_dec words)).

End HomePage.

(** The second version of the page: no [trimmedWord] (the word is sent and
  stored as typed), a "warning" variant, and a [catch] that only notifies. *)

Module HomePageV2.
Import Js.
Import UseToast.
Import HomePage.

Local Open Scope string_scope.

Definition handleSearch (settled : Settled) : M unit :=
  w <- getWord ;;
  if negb (truthy (trim w)) then
    toast validationError
  else
    setIsLoading true ;;
    outcome <- analyzeCollocations settled w ;;
    match outcome with
    | Fulfilled analysisResult =>
        match found analysisResult with
        | None =>
            toast {| payload_title := Some "No Collocations Found";
                     payload_description :=
                       Some ("No collocations found for the word "
                             ++ quoted w ++ ".");
                     payload_action := None;
                     payload_variant := Some "warning" |} ;;
            setEmptyCollocations
        | Some cs =>
            setCollocations cs ;;
            setHistory (recordSearch w) ;;
            toast {| payload_title := Some "Success";
                     payload_description :=
                       Some ("Collocations found for " ++ quoted w ++ ".");
                     payload_action := None;
                     payload_variant := None |}
        end
    | Rejected error =>
        toast {| payload_title := Some "Error";
                 payload_description :=
                   Some (messageOr error "Failed to analyze collocations.");
                 payload_action := None;
                 payload_variant := Some "destructive" |}
    end ;;
    setIsLoading false.

End HomePageV2.

(** ** The rest of the toast hook: ids handed out, unmounting *)

Module ToastLifecycle.
Import Js.
Import UseToast.

(** The hook unmounts: React runs the cleanup of the last run of the
    effect, [timeouts.forEach(clearTimeout)], and nothing is rendered any
    more. *)
Definition unmount (h : Hook) : Hook := cleanup h.

(** The ids of the handles that the calls of [toast] among [events] return,
    in the order of the calls. *)
Fixpoint handles (h : Hook) (events : list Event) : list string :=
  match events with
  | [] => []
  | Toast props :: rest =>
      fst (createToast props h) :: handles (step h (Toast props)) rest
  | e :: rest => handles (step h e) rest
  end.

Definition isToast (e : Event) : bool :=
  match e with
  | Toast _ => true
  | _ => false
  end.

(** A callback of a removal timer ran. *)
Definition firedCall (c : HostCall) : bool :=
  match c with
  | Fired _ _ => true
  | _ => false
  end.

(** The two toasts agree on everything but [open]. *)
Definition sameButOpen (t t' : ToasterToast) : Prop :=
  id t' = id t /\ title t' = title t /\ description t' = description t
  /\ action t' = action t /\ variant t' = variant t
  /\ onOpenChange t' = onOpenChange t.

End ToastLifecycle.

(** ** The page between the call of the service and its answer *)

Module HomeEvents.
Import Js.
Import UseToast.
Import HomePage.

Local Open Scope string_scope.

(** [handleHistoryClick(historicWord)] *)
Definition handleHistoryClick (historicWord : string) : M unit :=
  setWord historicWord.

(** The call [analyzeCollocations({ word: input })] leaves the page. *)
Definition sendRequest (input : string) : M unit :=
  fun r => (tt, mkRun (home r) (toasted r) (requests r ++ [input])).

(** [handleSearch] (first version) up to its [await]: the word it waits an
    answer for, or nothing when it returned at the guard. *)
Definition beginSearch : M (option string) :=
  w <- getWord ;;
  let trimmedWord := trim w in
  if negb (truthy trimmedWord) then
    toast validationError ;;
    ret None
  else
    setIsLoading true ;;
    sendRequest trimmedWord ;;
    ret (Some trimmedWord).

(** [handleSearch] (first version) from the moment the awaited call settles:
    the rest of the [try] block or the [catch] block, then [finally].  Of the
    render in which it was called it keeps [trimmedWord]; the setters act on
    the state as it is by then. *)
Definition finishSearch (trimmedWord : string) (outcome : Settled) : M unit :=
  match outcome with
  | Fulfilled analysisResult =>
      match found analysisResult with
      | None =>
          toast {| payload_title := Some "No Collocations Found";
                   payload_description :=
                     Some ("No collocations found for the word "
                           ++ quoted trimmedWord ++ ".");
                   payload_action := None;
                   payload_variant := Some "default" |} ;;
          setEmptyCollocations
      | Some cs =>
          setCollocations cs ;;
          setHistory (recordSearch trimmedWord) ;;
          toast {| payload_title := Some "Success";
                   payload_description :=
                     Some ("Collocations found for " ++ quoted trimmedWord ++ ".");
                   payload_action := None;
                   payload_variant := None |}
      end
  | Rejected error =>
      toast (lookupError error) ;;
      setEmptyCollocations
  end ;;
  setIsLoading false.

(** The page with the lookups that are awaiting their answer, oldest first
    (each stands for the [trimmedWord] its call of [handleSearch] holds). *)
Record Page : Type := mkPage {
  run : Run;
  inFlight : list string
}.

(** What happens to the page, one event per turn of the event loop: the user
    edits the input ([onChange]), [handleSearch] is called (the Enter key of
    the input, or the button), the user clicks the entry [index] of the
    history, and the lookup [index] of those in flight settles. *)
Inductive UiEvent : Type :=
| Typing (text : string)
| Submit
| HistoryClick (index : nat)
| Settles (index : nat) (outcome : Settled).

Definition without {X : Type} (index : nat) (l : list X) : list X :=
  firstn index l ++ skipn (S index) l.

Definition ui (p : Page) (e : UiEvent) : Page :=
  match e with
  | Typing text => mkPage (snd (setWord text (run p))) (inFlight p)
  | Submit =>
      let (waiting, r) := beginSearch (run p) in
      match waiting with
      | Some trimmedWord => mkPage r (inFlight p ++ [trimmedWord])
      | None => mkPage r (inFlight p)
      end
  | HistoryClick index =>
      match nth_error (history (home (run p))) index with
      | Some historicWord =>
          mkPage (snd (handleHistoryClick historicWord (run p))) (inFlight p)
      | None => p
      end
  | Settles index outcome =>
      match nth_error (inFlight p) index with
      | Some trimmedWord =>
          mkPage (snd (finishSearch trimmedWord outcome (run p)))
                 (without index (inFlight p))
      | None => p
      end
  end.

Definition browse (p : Page) (events : list UiEvent) : Page :=
  fold_left ui events p.

(** The page as it first renders, nothing in flight. *)
Definition opened : Page := mkPage initial [].

(** A word as [handleSearch] passes it on: trimmed and not empty. *)
Definition tidy (w : string) : Prop := trim w = w /\ truthy w = true.

(** What holds of the page after any events: the history has no word twice
    and at most five; the words in the history, sent to the service or waited
    for are tidy; and only words that were sent are stored or waited for. *)
Record orderly (p : Page) : Prop := mkOrderly {
  orderly_distinct : NoDup (history (home (run p)));
  orderly_bound : List.length (history (home (run p))) <= 5;
  orderly_history : Forall tidy (history (home (run p)));
  orderly_requests : Forall tidy (requests (run p));
  orderly_waiting : incl (inFlight p) (requests (run p));
  orderly_sent : incl (history (home (run p))) (requests (run p))
}.

End HomeEvents.

(** ** [useLocalStorage]

    [JSON.stringify], [JSON.parse] and the quota of [localStorage.setItem]
    belong to the host: they are taken as given ([parse] answers [None] when
    [JSON.parse] throws, [fits] tells whether [setItem] accepts a text).  The
    stored value is a list of strings, as [useState<string[]>] types it. *)

Module UseLocalStorage.
Import Js.

Section Host.

Variable stringify : list string -> string.
Variable parse : string -> option (list string).
Variable fits : string -> bool.

(** One hook instance for one key: the state, the slot of the key in
    [window.localStorage] ([None] when [getItem] answers [null]) and what
    [console.error] was called with, oldest first. *)
Record Store : Type := mkStore {
  storedValue : list string;
  slot : option string;
  errors : list string
}.

(** The first effect: the value it passes to [setStoredValue], if any.
    ([getItem] itself is taken not to throw.) *)
Definition loadEffect (st : Store) : option (list string) * Store :=
  match slot st with
  | Some item =>
      if truthy item then
        match parse item with
        | Some value => (Some value, st)
        | None =>
            (None, mkStore (storedValue st) (slot st)
                           (errors st ++ ["Error reading from localStorage:"%string]))
        end
      else (None, st)
  | None => (None, st)
  end.

(** The second effect: [setItem(key, JSON.stringify(storedValue))]. *)
Definition saveEffect (st : Store) : Store :=
  let text := stringify (storedValue st) in
  if fits text
  then mkStore (storedValue st) (Some text) (errors st)
  else mkStore (storedValue st) (slot st)
               (errors st ++ ["Error writing to localStorage:"%string]).

(** The hook mounts over a slot: the first render holds [initialValue]; both
    effects run on it, the first one queueing the parsed value, the second
    one saving [initialValue]; the queued value then causes a render whose
    changed [storedValue] runs the second effect again. *)
Definition mountOver (initialValue : list string) (found : option string) : Store :=
  let (queued, loaded) := loadEffect (mkStore initialValue found []) in
  let saved := saveEffect loaded in
  match queued with
  | Some value => saveEffect (mkStore value (slot saved) (errors saved))
  | None => saved
  end.

(** [setStoredValue(updater)] and the render it causes: the array is a new
    one, so the second effect runs. *)
Definition setStoredValue (updater : list string -> list string) (st : Store)
  : Store :=
  saveEffect (mkStore (updater (storedValue st)) (slot st) (errors st)).

Definition updates (st : Store) (updaters : list (list string -> list string))
  : Store :=
  fold_left (fun st' updater => setStoredValue updater st') updaters st.

End Host.

(** A host for the examples: texts are joined by commas, and a text is read
    back as the single word it is. *)
Definition sampleStringify (value : list string) : string :=
  String.concat "," value.

Definition sampleParse (text : string) : option (list string) := Some [text].

End UseLocalStorage.

(** * Properties of the reducer *)

Section Reducer.
Import Js.
Import UseToast.

Lemma add_within_limit (state : State) (toast : ToasterToast) :
  List.length (toasts (reducer state (ADD_TOAST toast))) <= TOAST_LIMIT.
Proof.
  cbn [reducer toasts]. unfold slice.
  rewrite Nat.sub_0_r. cbn [skipn].
  apply firstn_le_length.
Qed.

Lemma add_keeps_newest (state : State) (toast : ToasterToast) :
  In toast (toasts (reducer state (ADD_TOAST toast))).
Proof.
  cbn. now left.
Qed.

Lemma adds_within_limit (added : list ToasterToast) :
  forall state,
    List.length (toasts state) <= TOAST_LIMIT ->
    List.length (toasts (reduce state (map ADD_TOAST added))) <= TOAST_LIMIT.
Proof.
  induction added as [|toast added IH]; intros state Hstate.
  - exact Hstate.
  - cbn [map reduce fold_left]. apply IH. apply add_within_limit.
Qed.

Lemma targeted_close (toastId : option string) (t : ToasterToast) :
  targeted toastId (close t) = targeted toastId t.
Proof. destruct toastId; reflexivity. Qed.

Lemma update_ids (state : State) (u : ToastUpdate) :
  map id (toasts (reducer state (UPDATE_TOAST u))) = map id (toasts state).
Proof.
  cbn [reducer toasts]. rewrite map_map. apply map_ext.
  intro t. destruct (String.eqb_spec (id t) (update_id u)) as [Heq|Hneq].
  - cbn. now symmetry.
  - reflexivity.
Qed.

Lemma update_elsewhere (state : State) (u : ToastUpdate) :
  Forall2 (fun t t' => id t <> update_id u -> t' = t)
          (toasts state) (toasts (reducer state (UPDATE_TOAST u))).
Proof.
  cbn [reducer toasts].
  induction (toasts state) as [|t l IH]; cbn [map]; constructor; trivial.
  intro Hneq. apply String.eqb_neq in Hneq. now rewrite Hneq.
Qed.

(** C3.  Starting from the empty state, after any sequence of ADD_TOAST
    actions the list holds at most [TOAST_LIMIT] toasts; one more add keeps
    the bound, and the toast just added is in the list. *)
Theorem add_bounded_and_newest_present :
  forall (added : list ToasterToast) (toast : ToasterToast),
    let before := reduce {| toasts := [] |} (map ADD_TOAST added) in
    let after := reducer before (ADD_TOAST toast) in
    TOAST_LIMIT = 1 /\
    List.length (toasts before) <= TOAST_LIMIT /\
    List.length (toasts after) <= TOAST_LIMIT /\
    In toast (toasts after).
Proof.
  intros added toast before after. split; [reflexivity|]. split; [|split].
  - apply adds_within_limit. cbn. apply Nat.le_0_l.
  - apply add_within_limit.
  - apply add_keeps_newest.
Qed.

Lemma dismiss_twice (state : State) (toastId : option string) :
  reducer (reducer state (DISMISS_TOAST toastId)) (DISMISS_TOAST toastId)
  = reducer state (DISMISS_TOAST toastId).
Proof.
  cbn [reducer toasts]. f_equal.
  rewrite map_map. apply map_ext. intro t.
  destruct (targeted toastId t) eqn:Ht.
  - now rewrite targeted_close, Ht.
  - now rewrite Ht.
Qed.

(** C10.  UPDATE_TOAST keeps the length of the list, the order and the id
    of every toast, and leaves alone every toast whose id is not the
    action's; the action a handle's [update] dispatches carries the handle's
    id whatever [id] its argument holds, so it changes toasts of that id
    only and no id at all. *)
Theorem update_changes_matching_toast_only :
  forall (state : State) (u : ToastUpdate) (bound : string) (props : PartialToast),
    let state' := reducer state (UPDATE_TOAST u) in
    let viaHandle := reducer state (updateAction bound props) in
    (List.length (toasts state') = List.length (toasts state)
     /\ map id (toasts state') = map id (toasts state)
     /\ Forall2 (fun t t' => id t <> update_id u -> t' = t)
                (toasts state) (toasts state'))
    /\ (map id (toasts viaHandle) = map id (toasts state)
        /\ Forall2 (fun t t' => id t <> bound -> t' = t)
                   (toasts state) (toasts viaHandle)).
Proof.
  intros state u bound props state' viaHandle. repeat split.
  - cbn [state' reducer toasts]. apply length_map.
  - apply update_ids.
  - apply update_elsewhere.
  - apply update_ids.
  - exact (update_elsewhere state
             {| update_id := bound; update_rest := partial_rest props |}).
Qed.

(** An action that names an id no toast of the list bears finds nothing to
    change: the state is returned as it was. *)
Theorem absent_id_changes_nothing :
  forall (state : State) (toastId : string) (props : PartialToast),
    lookup toastId state = [] ->
    reducer state (updateAction toastId props) = state
    /\ reducer state (DISMISS_TOAST (Some toastId)) = state
    /\ reducer state (REMOVE_TOAST (Some toastId)) = state.
Proof.
  intros [l] toastId props Habsent. unfold lookup in Habsent. cbn [toasts] in Habsent.
  assert (Hnone : Forall (fun t => String.eqb (id t) toastId = false) l).
  { induction l as [|t l IH]; constructor; cbn [filter] in Habsent;
      destruct (String.eqb (id t) toastId); try discriminate; auto. }
  clear Habsent. cbn [updateAction reducer toasts update_id targeted].
  repeat split; f_equal.
  - induction Hnone as [|t l Ht _ IH]; cbn [map]; trivial.
    rewrite Ht. now f_equal.
  - induction Hnone as [|t l Ht _ IH]; cbn [map]; trivial.
    rewrite Ht. now f_equal.
  - induction Hnone as [|t l Ht _ IH]; cbn [filter]; trivial.
    rewrite Ht. cbn [negb]. now f_equal.
Qed.

Lemma absent_id_changes_nothing_example :
  reducer {| toasts := [newToast "2" pleaseEnterAWord] |}
          (DISMISS_TOAST (Some "1"%string))
  = {| toasts := [newToast "2" pleaseEnterAWord] |}.
Proof.
  destruct (@absent_id_changes_nothing
              {| toasts := [newToast "2" pleaseEnterAWord] |} "1"%string retitle)
    as (_ & Hdismiss & _).
  - reflexivity.
  - exact Hdismiss.
Defined.

End Reducer.

(** * Properties of the hook *)

Section Hook.
Import Js.
Import UseToast.

Lemma toString_inj (n m : nat) : toString n = toString m -> n = m.
Proof.
  unfold toString. intro H.
  apply (f_equal NilEmpty.uint_of_string) in H.
  rewrite !NilEmpty.usu in H.
  injection H as H.
  now apply DecimalNat.Unsigned.to_uint_inj.
Qed.

Lemma issued_mono (h h' : Hook) (i : string) :
  idCounterRef h <= idCounterRef h' -> issued h i -> issued h' i.
Proof.
  intros Hle (n & Hn & Hlo & Hhi). exists n. repeat split; trivial. lia.
Qed.

Lemma issued_not_next (h : Hook) (i : string) :
  issued h i -> i <> toString (idCounterRef h + 1).
Proof.
  intros (n & Hn & _ & Hhi) Heq. subst i.
  apply toString_inj in Heq. lia.
Qed.

(** The timer side of the hook leaves the React side alone. *)

Lemma schedule_frame (h : Hook) (t : ToasterToast) :
  state (schedule h t) = state h
  /\ idCounterRef (schedule h t) = idCounterRef h
  /\ clock (schedule h t) = clock h.
Proof.
  unfold schedule.
  destruct (isFalse (open t) && negb (has (id t) (toastTimeoutsRef h)));
    repeat split.
Qed.

Lemma effect_over_frame (l : list ToasterToast) :
  forall h,
    state (fold_left schedule l h) = state h
    /\ idCounterRef (fold_left schedule l h) = idCounterRef h
    /\ clock (fold_left schedule l h) = clock h.
Proof.
  induction l as [|t l IH]; intro h; cbn [fold_left].
  - repeat split.
  - destruct (IH (schedule h t)) as (Hs & Hc & Hk).
    destruct (schedule_frame h t) as (Hs' & Hc' & Hk').
    repeat split; congruence.
Qed.

Lemma cleanup_over_frame (m : list (string * nat)) :
  forall h,
    let h' := fold_left (fun h' entry => clearTimeout (snd entry) h') m h in
    state h' = state h
    /\ idCounterRef h' = idCounterRef h
    /\ clock h' = clock h
    /\ toastTimeoutsRef h' = toastTimeoutsRef h
    /\ nextTimeoutId h' = nextTimeoutId h.
Proof.
  induction m as [|entry m IH]; intro h; cbn [fold_left].
  - repeat split.
  - destruct (IH (clearTimeout (snd entry) h)) as (Hs & Hc & Hk & Hm & Hn).
    repeat split; cbn in *; congruence.
Qed.

Lemma cleanup_frame (h : Hook) :
  state (cleanup h) = state h
  /\ idCounterRef (cleanup h) = idCounterRef h
  /\ clock (cleanup h) = clock h
  /\ toastTimeoutsRef (cleanup h) = toastTimeoutsRef h
  /\ nextTimeoutId (cleanup h) = nextTimeoutId h.
Proof. apply cleanup_over_frame. Qed.

Lemma rerender_frame (h : Hook) :
  state (rerender h) = state h
  /\ idCounterRef (rerender h) = idCounterRef h
  /\ clock (rerender h) = clock h.
Proof.
  unfold rerender, effect.
  destruct (effect_over_frame (toasts (state (cleanup h))) (cleanup h))
    as (Hs & Hc & Hk).
  destruct (cleanup_frame h) as (Hs' & Hc' & Hk' & _).
  repeat split; congruence.
Qed.

Lemma dispatch_state (a : Action) (h : Hook) :
  state (dispatch a h) = reducer (state h) a.
Proof. unfold dispatch. now rewrite (proj1 (rerender_frame _)). Qed.

Lemma dispatch_idCounter (a : Action) (h : Hook) :
  idCounterRef (dispatch a h) = idCounterRef h.
Proof.
  unfold dispatch. now rewrite (proj1 (proj2 (rerender_frame _))).
Qed.

(** C6.  DISMISS_TOAST applied twice, with the same id (of a toast of the
    list or not, dismissed already or not) or with the id omitted both times,
    gives the state that one application gives; so the hook's [dismiss]
    called twice in a row leaves the same list of toasts as one call. *)
Theorem dismiss_twice_is_dismiss_once :
  forall (state : State) (h : Hook) (toastId : option string),
    reducer (reducer state (DISMISS_TOAST toastId)) (DISMISS_TOAST toastId)
    = reducer state (DISMISS_TOAST toastId)
    /\ UseToast.state (run h [Dismiss toastId; Dismiss toastId])
       = UseToast.state (run h [Dismiss toastId]).
Proof.
  intros state h toastId. split.
  - apply dismiss_twice.
  - cbn [run fold_left step]. rewrite !dispatch_state. apply dismiss_twice.
Qed.

(** The cleanup clears the timers whose identifier the map holds. *)

Lemma cleanup_over_pending (m : list (string * nat)) :
  forall h,
    pending (fold_left (fun h' entry => clearTimeout (snd entry) h') m h)
    = filter (fun tm => negb (existsb (fun entry => timeoutId tm =? snd entry) m))
             (pending h).
Proof.
  induction m as [|entry m IH]; intro h; cbn [fold_left].
  - cbn. induction (pending h) as [|tm l IHl]; cbn; congruence.
  - rewrite IH. cbn [clearTimeout pending].
    induction (pending h) as [|tm l IHl]; cbn [filter]; trivial.
    cbn [existsb].
    destruct (timeoutId tm =? snd entry); cbn [negb orb filter].
    + exact IHl.
    + destruct (existsb _ m); cbn [negb]; now rewrite IHl.
Qed.

Lemma cleanup_clears_recorded (h : Hook) :
  Forall (fun tm => In (target tm, timeoutId tm) (toastTimeoutsRef h)) (pending h) ->
  pending (cleanup h) = [].
Proof.
  intro Hrec. unfold cleanup. rewrite cleanup_over_pending.
  induction Hrec as [|tm l Htm _ IH]; cbn [filter]; trivial.
  replace (existsb _ (toastTimeoutsRef h)) with true; [exact IH|].
  symmetry. apply existsb_exists. exists (target tm, timeoutId tm).
  split; trivial. cbn. apply Nat.eqb_refl.
Qed.

(** What the reducer does to the ids of the list. *)

Lemma In_slice_from_0 (X : Type) (n : nat) (l : list X) (x : X) :
  In x (slice 0 n l) -> In x l.
Proof.
  unfold slice. rewrite Nat.sub_0_r. cbn [skipn].
  revert l. induction n as [|n IH]; intros [|y l]; cbn; try tauto.
  intros [H|H]; auto.
Qed.

Lemma reducer_ids (P : string -> Prop) (s : State) (a : Action) :
  Forall (fun t => P (id t)) (toasts s) ->
  (forall t, a = ADD_TOAST t -> P (id t)) ->
  Forall (fun t => P (id t)) (toasts (reducer s a)).
Proof.
  intros Hs Hadd. destruct a as [t|u|toastId|[toastId|]]; cbn [reducer toasts].
  - apply Forall_forall. intros x Hx. apply In_slice_from_0 in Hx.
    destruct Hx as [<-|Hx].
    + now apply Hadd.
    + revert x Hx. now apply Forall_forall.
  - apply Forall_map. eapply Forall_impl; [|exact Hs].
    intros t Ht. cbn beta.
    destruct (String.eqb_spec (id t) (update_id u)) as [Heq|_]; trivial.
    cbn. now rewrite <- Heq.
  - apply Forall_map. eapply Forall_impl; [|exact Hs].
    intros t Ht. cbn beta. now destruct (targeted toastId t).
  - apply Forall_forall. intros x Hx. apply filter_In in Hx.
    revert x Hx. intros x [Hx _]. revert x Hx. now apply Forall_forall.
  - constructor.
Qed.

(** Calls that do not concern an id. *)

Lemma untouched_clearTimeout (i : string) (h0 h : Hook) (handle : nat) :
  untouched i h0 h -> untouched i h0 (clearTimeout handle h).
Proof.
  intros (Ht & Hp & calls & Hlog & Hq). repeat split; cbn; trivial.
  - apply Forall_forall. intros tm Htm. apply filter_In in Htm.
    destruct Htm as [Htm _]. revert tm Htm. now apply Forall_forall.
  - exists (calls ++ [ClearTimeout handle]). split.
    + now rewrite Hlog, app_assoc.
    + rewrite existsb_app, Hq. reflexivity.
Qed.

Lemma untouched_cleanup (i : string) (h0 h : Hook) :
  untouched i h0 h -> untouched i h0 (cleanup h).
Proof.
  unfold cleanup. generalize (toastTimeoutsRef h) as m. intro m.
  revert h. induction m as [|entry m IH]; intros h Hu; cbn [fold_left]; trivial.
  apply IH. now apply untouched_clearTimeout.
Qed.

Lemma untouched_schedule (i : string) (h0 h : Hook) (t : ToasterToast) :
  id t <> i -> untouched i h0 h -> untouched i h0 (schedule h t).
Proof.
  intros Hid Hu. unfold schedule.
  destruct (isFalse (open t) && negb (has (id t) (toastTimeoutsRef h))); trivial.
  destruct Hu as (Ht & Hp & calls & Hlog & Hq). repeat split; cbn; trivial.
  - apply Forall_app. split; trivial. constructor; trivial.
  - exists (calls ++ [SetTimeout (nextTimeoutId h) (id t)]). split.
    + now rewrite Hlog, app_assoc.
    + rewrite existsb_app, Hq. cbn.
      apply String.eqb_neq in Hid. now rewrite Hid.
Qed.

Lemma untouched_rerender (i : string) (h0 h : Hook) :
  untouched i h0 h -> untouched i h0 (rerender h).
Proof.
  intro Hu. apply untouched_cleanup in Hu.
  unfold rerender, effect.
  assert (Hids : Forall (fun t => id t <> i) (toasts (state (cleanup h))))
    by apply Hu.
  revert Hu Hids. generalize (toasts (state (cleanup h))) as l.
  generalize (cleanup h) as h1. intros h1 l. revert h1.
  induction l as [|t l IH]; intros h1 Hu Hids; cbn [fold_left]; trivial.
  inversion Hids as [|? ? Ht Hl]; subst.
  apply IH; trivial. now apply untouched_schedule.
Qed.

Lemma untouched_dispatch (i : string) (h0 h : Hook) (a : Action) :
  (forall t, a = ADD_TOAST t -> id t <> i) ->
  untouched i h0 h -> untouched i h0 (dispatch a h).
Proof.
  intros Hadd (Ht & Hp & Hlog). unfold dispatch.
  apply untouched_rerender. repeat split; cbn; trivial.
  now apply (reducer_ids (fun j => j <> i)).
Qed.

Lemma untouched_fire (i : string) (h0 h : Hook) (tm : Timer) :
  In tm (pending h) -> untouched i h0 h -> untouched i h0 (fire tm h).
Proof.
  intros Htm (Ht & Hp & calls & Hlog & Hq). unfold fire, expire.
  apply untouched_rerender. repeat split; cbn [state pending hostLog].
  - apply (reducer_ids (fun j => j <> i)); trivial. discriminate.
  - apply Forall_forall. intros tm' Htm'. apply filter_In in Htm'.
    destruct Htm' as [Htm' _]. revert tm' Htm'. now apply Forall_forall.
  - exists (calls ++ [Fired (timeoutId tm) (target tm)]). split.
    + now rewrite Hlog, app_assoc.
    + rewrite existsb_app, Hq. cbn.
      rewrite Forall_forall in Hp. specialize (Hp tm Htm).
      apply String.eqb_neq in Hp. now rewrite Hp.
Qed.

Lemma untouched_fireDue (i : string) (h0 : Hook) (rounds : nat) :
  forall h, untouched i h0 h -> untouched i h0 (fireDue rounds h).
Proof.
  induction rounds as [|rounds IH]; intros h Hu; cbn [fireDue]; trivial.
  destruct (find _ (pending h)) as [tm|] eqn:Hfind; trivial.
  apply IH. apply untouched_fire; trivial.
  now apply find_some in Hfind.
Qed.

Lemma untouched_tick (i : string) (h0 h : Hook) :
  untouched i h0 h -> untouched i h0 (tick h).
Proof.
  intro Hu. unfold tick. apply untouched_fireDue. exact Hu.
Qed.

Lemma fireDue_idCounter (rounds : nat) :
  forall h, idCounterRef (fireDue rounds h) = idCounterRef h.
Proof.
  induction rounds as [|rounds IH]; intro h; cbn [fireDue]; trivial.
  destruct (find _ (pending h)) as [tm|]; trivial.
  rewrite IH. unfold fire, expire.
  now rewrite (proj1 (proj2 (rerender_frame _))).
Qed.

Lemma step_idCounter (h : Hook) (e : Event) :
  idCounterRef h <= idCounterRef (step h e).
Proof.
  destruct e as [props|toastId|i props|]; cbn [step createToast snd].
  - rewrite dispatch_idCounter. cbn. lia.
  - now rewrite dispatch_idCounter.
  - now rewrite dispatch_idCounter.
  - unfold tick. now rewrite fireDue_idCounter.
Qed.

Lemma untouched_step (i : string) (h0 h : Hook) (e : Event) :
  issued h i -> untouched i h0 h -> untouched i h0 (step h e).
Proof.
  intros Hi Hu. destruct e as [props|toastId|j props|]; cbn [step createToast snd].
  - apply untouched_dispatch.
    + intros t [= <-]. cbn. intro Heq. now apply (issued_not_next Hi).
    + exact Hu.
  - apply untouched_dispatch; trivial. discriminate.
  - apply untouched_dispatch; trivial. discriminate.
  - now apply untouched_tick.
Qed.

Lemma untouched_run (i : string) (h0 : Hook) (events : list Event) :
  forall h, issued h i -> untouched i h0 h -> untouched i h0 (run h events).
Proof.
  induction events as [|e events IH]; intros h Hi Hu; cbn [run fold_left]; trivial.
  apply IH.
  - eapply issued_mono; [apply step_idCounter|exact Hi].
  - now apply untouched_step.
Qed.

(** The map of timeouts. *)

Lemma has_false_iff (key : string) (m : list (string * nat)) :
  has key m = false <-> ~ In key (map fst m).
Proof.
  unfold has. split.
  - intros Hhas Hin. apply in_map_iff in Hin. destruct Hin as (entry & <- & Hin).
    assert (Htrue : existsb (fun e => String.eqb (fst e) (fst entry)) m = true).
    { apply existsb_exists. exists entry. split; trivial. apply String.eqb_refl. }
    congruence.
  - intro Hnin. destruct (existsb _ m) eqn:Hex; trivial.
    apply existsb_exists in Hex. destruct Hex as (entry & Hin & Heq).
    apply String.eqb_eq in Heq. subst key.
    exfalso. apply Hnin. now apply in_map.
Qed.

Lemma set_absent (key : string) (value : nat) (m : list (string * nat)) :
  has key m = false -> set key value m = m ++ [(key, value)].
Proof. unfold set. now intros ->. Qed.

Lemma one_entry_one_value (m : list (string * nat)) (key : string) (v v' : nat) :
  NoDup (map fst m) -> In (key, v) m -> In (key, v') m -> v = v'.
Proof.
  induction m as [|[k w] m IH]; cbn [map fst]; intros Hnd Hv Hv'.
  - destruct Hv.
  - inversion Hnd as [|? ? Hk Hm]; subst.
    destruct Hv as [Hv|Hv], Hv' as [Hv'|Hv'].
    + congruence.
    + injection Hv as -> ->. exfalso. apply Hk.
      change key with (fst (key, v')). now apply in_map.
    + injection Hv' as -> ->. exfalso. apply Hk.
      change key with (fst (key, v)). now apply in_map.
    + now apply IH.
Qed.

(** The invariant is kept. *)

Lemma schedule_keeps (h : Hook) (t : ToasterToast) :
  issued h (id t) ->
  Forall (fun entry => issued h (fst entry)) (toastTimeoutsRef h) ->
  Forall (fun tm => In (target tm, timeoutId tm) (toastTimeoutsRef h)) (pending h) ->
  NoDup (map fst (toastTimeoutsRef h)) ->
  let h' := schedule h t in
  Forall (fun entry => issued h' (fst entry)) (toastTimeoutsRef h')
  /\ Forall (fun tm => In (target tm, timeoutId tm) (toastTimeoutsRef h')) (pending h')
  /\ NoDup (map fst (toastTimeoutsRef h'))
  /\ List.length (pending h') <= List.length (pending h) + 1.
Proof.
  intros Hid Hkeys Hrec Hnd. unfold schedule.
  destruct (isFalse (open t)); cbn [andb];
    [|cbn zeta; repeat split; trivial; lia].
  destruct (has (id t) (toastTimeoutsRef h)) eqn:Hhas; cbn [negb];
    [cbn zeta; repeat split; trivial; lia|].
  cbn. rewrite set_absent by exact Hhas. repeat split.
  - apply Forall_app. split; [exact Hkeys|]. constructor; [exact Hid|constructor].
  - apply Forall_app. split.
    + eapply Forall_impl; [|exact Hrec]. intros tm Htm.
      apply in_or_app. now left.
    + constructor; [|constructor]. cbn. apply in_or_app. right. now left.
  - rewrite map_app. cbn. apply NoDup_app; trivial.
    + constructor; [intros []|constructor].
    + intros key Hin [<-|[]]. now apply (has_false_iff (id t) (toastTimeoutsRef h)).
  - rewrite length_app. cbn. lia.
Qed.

Lemma effect_over_keeps (l : list ToasterToast) :
  forall h,
    Forall (fun t => issued h (id t)) l ->
    Forall (fun entry => issued h (fst entry)) (toastTimeoutsRef h) ->
    Forall (fun tm => In (target tm, timeoutId tm) (toastTimeoutsRef h)) (pending h) ->
    NoDup (map fst (toastTimeoutsRef h)) ->
    let h' := fold_left schedule l h in
    Forall (fun entry => issued h' (fst entry)) (toastTimeoutsRef h')
    /\ Forall (fun tm => In (target tm, timeoutId tm) (toastTimeoutsRef h')) (pending h')
    /\ NoDup (map fst (toastTimeoutsRef h'))
    /\ List.length (pending h') <= List.length (pending h) + List.length l.
Proof.
  induction l as [|t l IH]; intros h Hl Hkeys Hrec Hnd; cbn [fold_left].
  - cbn zeta. repeat split; trivial. cbn. lia.
  - inversion Hl as [|? ? Ht Hl']; subst.
    destruct (schedule_keeps t Ht Hkeys Hrec Hnd) as (Hkeys' & Hrec' & Hnd' & Hlen).
    assert (Hc : idCounterRef h <= idCounterRef (schedule h t))
      by (rewrite (proj1 (proj2 (schedule_frame h t))); lia).
    destruct (IH (schedule h t)) as (Hk2 & Hr2 & Hn2 & Hlen2); trivial.
    + eapply Forall_impl; [|exact Hl']. intros t' Ht'.
      now apply (issued_mono _ Hc).
    + cbn zeta. repeat split; trivial. cbn [List.length]. lia.
Qed.

Lemma wf_rerender (h : Hook) :
  Forall (fun t => issued h (id t)) (toasts (state h)) ->
  Forall (fun entry => issued h (fst entry)) (toastTimeoutsRef h) ->
  Forall (fun tm => In (target tm, timeoutId tm) (toastTimeoutsRef h)) (pending h) ->
  NoDup (map fst (toastTimeoutsRef h)) ->
  List.length (toasts (state h)) <= TOAST_LIMIT ->
  wf (rerender h).
Proof.
  intros Hts Hkeys Hrec Hnd Hlim.
  destruct (cleanup_frame h) as (Hs & Hc & _ & Hm & _).
  pose proof (cleanup_clears_recorded h Hrec) as Hp.
  destruct (rerender_frame h) as (Hs' & Hc' & _).
  assert (Hissued : forall i, issued h i -> issued (cleanup h) i)
    by (intros i; apply issued_mono; rewrite Hc; lia).
  destruct (@effect_over_keeps (toasts (state (cleanup h))) (cleanup h))
    as (Hk2 & Hr2 & Hn2 & Hlen).
  - rewrite Hs. eapply Forall_impl; [|exact Hts]. intros t. apply Hissued.
  - rewrite Hm. eapply Forall_impl; [|exact Hkeys]. intros e. apply Hissued.
  - rewrite Hp. constructor.
  - now rewrite Hm.
  - rewrite Hp, Hs in Hlen. cbn [List.length Nat.add] in Hlen.
    constructor; trivial.
    + rewrite Hs'. eapply Forall_impl; [|exact Hts]. intros t.
      apply issued_mono. rewrite Hc'. lia.
    + now rewrite Hs'.
    + unfold rerender, effect. rewrite Hs. lia.
Qed.

Lemma reducer_limit (s : State) (a : Action) :
  List.length (toasts s) <= TOAST_LIMIT ->
  List.length (toasts (reducer s a)) <= TOAST_LIMIT.
Proof.
  intro Hs. destruct a as [t|u|toastId|[toastId|]].
  - apply add_within_limit.
  - cbn [reducer toasts]. now rewrite length_map.
  - cbn [reducer toasts]. now rewrite length_map.
  - cbn [reducer toasts]. eapply Nat.le_trans; [apply filter_length_le|exact Hs].
  - cbn. lia.
Qed.

Lemma wf_dispatch (h : Hook) (a : Action) :
  wf h -> (forall t, a = ADD_TOAST t -> issued h (id t)) -> wf (dispatch a h).
Proof.
  intros [Hts Hkeys Hrec Hnd Hlim _] Hadd. unfold dispatch.
  apply wf_rerender; cbn; trivial.
  - apply (reducer_ids (issued h)); trivial.
  - now apply reducer_limit.
Qed.

Lemma wf_createToast (h : Hook) (payload : ToastPayload) :
  wf h -> wf (snd (createToast payload h)).
Proof.
  intros [Hts Hkeys Hrec Hnd Hlim Htm]. cbn [createToast snd].
  apply wf_dispatch.
  - assert (Hmono : forall i, issued h i
                              -> issued (with_idCounter (idCounterRef h + 1) h) i)
      by (intro i; apply issued_mono; cbn; lia).
    constructor; cbn [state toastTimeoutsRef pending with_idCounter]; trivial.
    + eapply Forall_impl; [|exact Hts]. intro t. apply Hmono.
    + eapply Forall_impl; [|exact Hkeys]. intro e. apply Hmono.
  - intros t [= <-]. exists (idCounterRef h + 1). cbn. repeat split; lia.
Qed.

Lemma expire_recorded (h : Hook) (tm : Timer) :
  Forall (fun tm' => In (target tm', timeoutId tm') (toastTimeoutsRef h)) (pending h) ->
  NoDup (map fst (toastTimeoutsRef h)) ->
  In tm (pending h) ->
  Forall (fun tm' => In (target tm', timeoutId tm') (toastTimeoutsRef (expire tm h)))
         (pending (expire tm h)).
Proof.
  intros Hrec Hnd Htm. cbn [expire toastTimeoutsRef pending].
  rewrite Forall_forall in Hrec.
  apply Forall_forall. intros tm' Hin. apply filter_In in Hin.
  destruct Hin as [Hin Hneq]. unfold delete. apply filter_In. split.
  - now apply Hrec.
  - cbn [fst]. apply negb_true_iff. apply String.eqb_neq. intro Heq.
    apply negb_true_iff, Nat.eqb_neq in Hneq. apply Hneq.
    apply (@one_entry_one_value (toastTimeoutsRef h) (target tm) _ _ Hnd).
    + rewrite <- Heq. now apply Hrec.
    + now apply Hrec.
Qed.

Lemma wf_fire (h : Hook) (tm : Timer) :
  wf h -> In tm (pending h) -> wf (fire tm h).
Proof.
  intros [Hts Hkeys Hrec Hnd Hlim _] Htm. unfold fire, expire.
  apply wf_rerender; cbn [state toastTimeoutsRef pending idCounterRef].
  - apply (reducer_ids (issued h)); trivial. discriminate.
  - apply Forall_forall. intros entry Hin. apply filter_In in Hin.
    destruct Hin as [Hin _]. revert entry Hin. now apply Forall_forall.
  - exact (@expire_recorded h tm Hrec Hnd Htm).
  - unfold delete. clear - Hnd.
    induction (toastTimeoutsRef h) as [|[k v] m IH]; cbn [filter map fst]; trivial.
    inversion Hnd as [|? ? Hk Hm]; subst.
    destruct (negb (String.eqb k (target tm))); cbn [map fst]; auto.
    constructor; auto. intro Hin. apply Hk.
    apply in_map_iff in Hin. destruct Hin as (e & He & Hin).
    apply filter_In in Hin. rewrite <- He. apply in_map. tauto.
  - now apply reducer_limit.
Qed.

Lemma wf_with_clock (h : Hook) (n : nat) : wf h -> wf (with_clock n h).
Proof. intros [Hts Hkeys Hrec Hnd Hlim Htm]. now constructor. Qed.

Lemma wf_fireDue (rounds : nat) :
  forall h, wf h -> wf (fireDue rounds h).
Proof.
  induction rounds as [|rounds IH]; intros h Hwf; cbn [fireDue]; trivial.
  destruct (find _ (pending h)) as [tm|] eqn:Hfind; trivial.
  apply IH. apply wf_fire; trivial. now apply find_some in Hfind.
Qed.

Lemma wf_step (h : Hook) (e : Event) : wf h -> wf (step h e).
Proof.
  intro Hwf. destruct e as [props|toastId|i props|]; cbn [step].
  - now apply wf_createToast.
  - apply wf_dispatch; trivial. discriminate.
  - apply wf_dispatch; trivial. discriminate.
  - unfold tick. apply wf_fireDue. now apply wf_with_clock.
Qed.

Lemma wf_mount : wf mount.
Proof. constructor; cbn; repeat constructor. Qed.

Lemma wf_run (events : list Event) :
  forall h, wf h -> wf (run h events).
Proof.
  induction events as [|e events IH]; intros h Hwf; cbn [run fold_left]; trivial.
  apply IH. now apply wf_step.
Qed.

Lemma reachable_wf (h : Hook) : reachable h -> wf h.
Proof. intros (events & ->). apply wf_run, wf_mount. Qed.

Lemma run_app (h : Hook) (events later : list Event) :
  run h (events ++ later) = run (run h events) later.
Proof. apply fold_left_app. Qed.

Lemma lookup_nil (i : string) (s : State) :
  Forall (fun t => id t <> i) (toasts s) -> lookup i s = [].
Proof.
  unfold lookup. induction 1 as [|t l Ht _ IH]; cbn [filter]; trivial.
  apply String.eqb_neq in Ht. now rewrite Ht.
Qed.

Lemma timerPending_false (i : string) (h : Hook) :
  timerPending i h = false <-> Forall (fun tm => target tm <> i) (pending h).
Proof.
  unfold timerPending. induction (pending h) as [|tm l IH]; cbn [existsb].
  - split; [constructor|reflexivity].
  - rewrite orb_false_iff, IH. split.
    + intros [Htm Hl]. constructor; trivial. now apply String.eqb_neq.
    + intro H. inversion H; subst. split; trivial. now apply String.eqb_neq.
Qed.

(** C5.  In a state the hook can reach, with one toast in the list that is
    open and has no timer armed, a call of [toast] leaves the new toast alone
    in the list; whatever happens afterwards, no toast of the list bears the
    first one's id (so its flag is never set to false), no timer is armed for
    that id, and no call to the host arms or fires one. *)
Theorem eviction_bypasses_dismissal :
  forall (h : Hook) (first : ToasterToast) (payload : ToastPayload)
         (events : list Event),
    reachable h ->
    toasts (state h) = [first] ->
    open first = Some true ->
    timerPending (id first) h = false ->
    let added := step h (Toast payload) in
    let later := run added events in
    TOAST_LIMIT = 1
    /\ toasts (state added) = [newToast (toString (idCounterRef h + 1)) payload]
    /\ lookup (id first) (state later) = []
    /\ timerPending (id first) later = false
    /\ exists calls,
         hostLog later = hostLog h ++ calls
         /\ existsb (concerns (id first)) calls = false.
Proof.
  intros h first payload events Hreach Hlist Hopen Hpending added later.
  pose proof (reachable_wf Hreach) as Hwf.
  assert (Hissued : issued h (id first)).
  { pose proof (wf_toasts Hwf) as Hts. rewrite Hlist in Hts.
    now inversion Hts. }
  assert (Hadded : toasts (state added)
                   = [newToast (toString (idCounterRef h + 1)) payload]).
  { subst added. cbn [step createToast snd]. rewrite dispatch_state.
    reflexivity. }
  assert (Huntouched : untouched (id first) h added).
  { subst added. cbn [step createToast snd]. unfold dispatch.
    apply untouched_rerender. repeat split; cbn [state pending hostLog with_state
                                                 with_idCounter].
    - cbn. constructor; [|constructor]. cbn.
      intro Heq. symmetry in Heq. now apply (issued_not_next Hissued).
    - now apply timerPending_false.
    - exists []. now rewrite app_nil_r. }
  assert (Hlater : untouched (id first) h later).
  { subst later. apply untouched_run; trivial.
    eapply issued_mono; [apply step_idCounter|exact Hissued]. }
  destruct Hlater as (Hts & Hps & Hlog).
  split; [reflexivity|]. split; [exact Hadded|]. split; [|split].
  - now apply lookup_nil.
  - now apply timerPending_false.
  - exact Hlog.
Qed.

(** The flag of a toast that is not open stays so under every action that
    neither adds a toast of its id nor updates it with [open: true]. *)
Lemma reducer_keeps_shut (i : string) (s : State) (a : Action) :
  Forall (fun t => id t = i -> open t <> Some true) (toasts s) ->
  (forall t, a = ADD_TOAST t -> id t <> i) ->
  (forall u, a = UPDATE_TOAST u -> update_id u = i ->
             patch_open (update_rest u) <> Some (Some true)) ->
  Forall (fun t => id t = i -> open t <> Some true) (toasts (reducer s a)).
Proof.
  intros Hs Hadd Hupd. destruct a as [t|u|toastId|[toastId|]]; cbn [reducer toasts].
  - apply Forall_forall. intros x Hx. apply In_slice_from_0 in Hx.
    destruct Hx as [<-|Hx].
    + intro Heq. exfalso. now apply (Hadd t).
    + rewrite Forall_forall in Hs. now apply Hs.
  - apply Forall_map. eapply Forall_impl; [|exact Hs].
    intros t Ht. cbn beta.
    destruct (String.eqb_spec (id t) (update_id u)) as [Heq|_]; trivial.
    cbn [merge id open]. intro Hi.
    specialize (Hupd u eq_refl Hi).
    destruct (patch_open (update_rest u)) as [v|]; cbn [spread].
    + intro Hv. apply Hupd. now rewrite Hv.
    + apply Ht. congruence.
  - apply Forall_map. eapply Forall_impl; [|exact Hs].
    intros t Ht. cbn beta. destruct (targeted toastId t); trivial.
    cbn. discriminate.
  - apply Forall_forall. intros x Hx. apply filter_In in Hx.
    destruct Hx as [Hx _]. rewrite Forall_forall in Hs. now apply Hs.
  - constructor.
Qed.

Lemma fireDue_keeps_shut (i : string) (rounds : nat) :
  forall h,
    Forall (fun t => id t = i -> open t <> Some true) (toasts (state h)) ->
    Forall (fun t => id t = i -> open t <> Some true)
           (toasts (state (fireDue rounds h))).
Proof.
  induction rounds as [|rounds IH]; intros h Hs; cbn [fireDue]; trivial.
  destruct (find _ (pending h)) as [tm|]; trivial.
  apply IH. unfold fire, expire. rewrite (proj1 (rerender_frame _)). cbn [state].
  apply reducer_keeps_shut; trivial; discriminate.
Qed.

Lemma step_keeps_shut (i : string) (h : Hook) (e : Event) :
  issued h i ->
  reopens i e = false ->
  Forall (fun t => id t = i -> open t <> Some true) (toasts (state h)) ->
  Forall (fun t => id t = i -> open t <> Some true) (toasts (state (step h e))).
Proof.
  intros Hi He Hs. destruct e as [props|toastId|j props|]; cbn [step createToast snd].
  - rewrite dispatch_state. apply reducer_keeps_shut; trivial; try discriminate.
    intros t [= <-]. cbn. intro Heq. now apply (issued_not_next Hi).
  - rewrite dispatch_state. apply reducer_keeps_shut; trivial; discriminate.
  - rewrite dispatch_state. apply reducer_keeps_shut; trivial; try discriminate.
    intros u [= <-] Hj. cbn in Hj. subst j. cbn [update_rest].
    cbn [reopens] in He. rewrite String.eqb_refl in He. cbn [andb] in He.
    intro Hopen. rewrite Hopen in He. discriminate.
  - unfold tick. now apply fireDue_keeps_shut.
Qed.

Lemma run_keeps_shut (i : string) (events : list Event) :
  forall h,
    issued h i ->
    existsb (reopens i) events = false ->
    Forall (fun t => id t = i -> open t <> Some true) (toasts (state h)) ->
    Forall (fun t => id t = i -> open t <> Some true)
           (toasts (state (run h events))).
Proof.
  induction events as [|e events IH]; intros h Hi He Hs; cbn [run fold_left]; trivial.
  cbn [existsb] in He. apply orb_false_iff in He. destruct He as [He Hes].
  apply IH; trivial.
  - eapply issued_mono; [apply step_idCounter|exact Hi].
  - now apply step_keeps_shut.
Qed.

(** C4, as the code has it.  Once a toast of the list has [open = false],
    then after any further events none of which is an update of that toast
    with [open: true], no toast of that id has [open = true]. *)
Theorem shut_unless_updated_open :
  forall (events later : list Event) (t : ToasterToast),
    In t (toasts (state (run mount events))) ->
    open t = Some false ->
    existsb (reopens (id t)) later = false ->
    Forall (fun t' => id t' = id t -> open t' <> Some true)
           (toasts (state (run mount (events ++ later)))).
Proof.
  intros events later t Hin Hopen Hlater.
  rewrite run_app.
  assert (Hwf : wf (run mount events)) by (apply reachable_wf; now exists events).
  pose proof (wf_toasts Hwf) as Hts. rewrite Forall_forall in Hts.
  assert (Hlim : List.length (toasts (state (run mount events))) <= 1)
    by apply (wf_limit Hwf).
  apply run_keeps_shut; trivial.
  - now apply Hts.
  - destruct (toasts (state (run mount events))) as [|t0 [|t1 l]].
    + destruct Hin.
    + destruct Hin as [->|[]]. constructor; [|constructor].
      intros _. rewrite Hopen. discriminate.
    + cbn in Hlim. lia.
Qed.

(** C4 fails as stated: a handle's [update({ open: true })] opens a
    dismissed toast again. *)
Lemma update_reopens_a_dismissed_toast :
  ~ (forall (events later : list Event) (t t' : ToasterToast),
        In t (toasts (state (run mount events))) ->
        open t = Some false ->
        In t' (toasts (state (run mount (events ++ later)))) ->
        id t' = id t ->
        open t' <> Some true).
Proof.
  intro H.
  pose (payload := mkPayload (Some "Error"%string) None None None).
  pose (closed := close (newToast "1" payload)).
  pose (opened := mkToast "1" (Some "Error"%string) None None None
                          (Some (DismissOnClose "1")) (Some true)).
  apply (H [Toast payload; Dismiss (Some "1"%string)]
           [Update "1" openTrue] closed opened).
  - now left.
  - reflexivity.
  - now left.
  - reflexivity.
  - reflexivity.
Qed.

Lemma eviction_bypasses_dismissal_example :
  lookup "1" (state (run (step (run mount [Toast pleaseEnterAWord])
                               (Toast pleaseEnterAWord))
                         [Dismiss None; Tick; Update "1" openTrue])) = []
  /\ timerPending "1" (run (step (run mount [Toast pleaseEnterAWord])
                                 (Toast pleaseEnterAWord))
                           [Dismiss None; Tick; Update "1" openTrue]) = false.
Proof.
  destruct (@eviction_bypasses_dismissal
              (run mount [Toast pleaseEnterAWord])
              (newToast "1" pleaseEnterAWord)
              pleaseEnterAWord
              [Dismiss None; Tick; Update "1"%string openTrue])
    as (_ & _ & Hlist & Htimer & _).
  - exists [Toast pleaseEnterAWord]. reflexivity.
  - reflexivity.
  - reflexivity.
  - reflexivity.
  - split; assumption.
Defined.

Lemma shut_unless_updated_open_example :
  Forall (fun t' => id t' = "1"%string -> open t' <> Some true)
         (toasts (state (run mount
                             ([Toast pleaseEnterAWord; Dismiss (Some "1"%string)]
                              ++ [Tick; Update "1" retitle; Dismiss None])))).
Proof.
  apply (@shut_unless_updated_open
           [Toast pleaseEnterAWord; Dismiss (Some "1"%string)]
           [Tick; Update "1"%string retitle; Dismiss None]
           (close (newToast "1" pleaseEnterAWord))).
  - left. reflexivity.
  - reflexivity.
  - reflexivity.
Defined.

(** Time passing on a hook with no timer armed. *)

Lemma tick_idle (h : Hook) :
  pending h = [] -> tick h = with_clock (clock h + 1) h.
Proof. intro Hp. unfold tick. cbn [pending with_clock]. now rewrite Hp. Qed.

Lemma elapse_idle (n : nat) :
  forall h,
    pending h = [] ->
    state (elapse n h) = state h
    /\ pending (elapse n h) = []
    /\ hostLog (elapse n h) = hostLog h.
Proof.
  unfold elapse. induction n as [|n IH]; intros h Hp; cbn [repeat run fold_left].
  - repeat split. exact Hp.
  - cbn [step]. rewrite tick_idle by exact Hp.
    destruct (IH (with_clock (clock h + 1) h) Hp) as (Hs & Hp' & Hl).
    unfold run in Hs, Hp', Hl. now rewrite Hs, Hp', Hl.
Qed.

(** C1, at the input where the code departs from it.  A toast is shown and
    dismissed, which arms its removal timer; a millisecond later it is
    dismissed again.  The second dismissal clears the timer and arms none, and
    however long one waits afterwards the toast is still in the list. *)
Theorem second_dismissal_strands_the_toast :
  forall (payload : ToastPayload) (n : nat),
    let dismissed := run mount [Toast payload; Dismiss (Some "1"%string)] in
    let again := run dismissed [Tick; Dismiss (Some "1"%string)] in
    map flag (toasts (state dismissed)) = [("1"%string, Some false)]
    /\ timerPending "1" dismissed = true
    /\ timerPending "1" again = false
    /\ map flag (toasts (state (elapse n again))) = [("1"%string, Some false)].
Proof.
  intros payload n dismissed again.
  split; [reflexivity|]. split; [reflexivity|]. split; [reflexivity|].
  destruct (@elapse_idle n again) as (Hs & _); [reflexivity|].
  rewrite Hs. reflexivity.
Qed.

(** C2, at the input where the code departs from it.  A toast is shown,
    dismissed (a timer is armed), then opened again by its handle's
    [update({ open: true })], which clears the timer.  When it is dismissed
    once more its flag goes from true to false with no timer armed for its id,
    and yet the hook arms none, then or later. *)
Theorem reclosed_toast_arms_no_timer :
  forall (payload : ToastPayload) (n : nat),
    let reopened :=
      run mount [Toast payload; Dismiss (Some "1"%string); Tick;
                 Update "1" openTrue; Tick] in
    let reclosed := step reopened (Dismiss (Some "1"%string)) in
    map flag (toasts (state reopened)) = [("1"%string, Some true)]
    /\ timerPending "1" reopened = false
    /\ map flag (toasts (state reclosed)) = [("1"%string, Some false)]
    /\ armed reclosed = armed reopened
    /\ armed (elapse n reclosed) = armed reopened
    /\ timerPending "1" (elapse n reclosed) = false.
Proof.
  intros payload n reopened reclosed.
  split; [reflexivity|]. split; [reflexivity|]. split; [reflexivity|].
  split; [reflexivity|].
  destruct (@elapse_idle n reclosed) as (_ & Hp & Hl); [reflexivity|].
  unfold armed, timerPending. rewrite Hl, Hp. split; reflexivity.
Qed.

(** ** The removal, when nothing else happens *)

Lemma schedule_open (h : Hook) (t : ToasterToast) :
  isFalse (open t) = false -> schedule h t = h.
Proof. unfold schedule. now intros ->. Qed.

(** The hook right after [toast(payload)]. *)
Lemma shown_facts (h : Hook) (payload : ToastPayload) :
  wf h ->
  let shown := step h (Toast payload) in
  toasts (state shown) = [newToast (toString (idCounterRef h + 1)) payload]
  /\ pending shown = []
  /\ toastTimeoutsRef shown = toastTimeoutsRef h
  /\ nextTimeoutId shown = nextTimeoutId h
  /\ clock shown = clock h.
Proof.
  intros Hwf shown. subst shown. cbn [step createToast snd].
  unfold dispatch, rerender, effect.
  set (mid := with_state _ _).
  destruct (cleanup_frame mid) as (Hs & _ & Hk & Hm & Hn).
  assert (Htoasts : toasts (state mid)
                    = [newToast (toString (idCounterRef h + 1)) payload])
    by reflexivity.
  rewrite Hs, Htoasts. cbn [fold_left].
  rewrite schedule_open by reflexivity.
  rewrite Hs, Hm, Hn, Hk. repeat split; trivial.
  apply cleanup_clears_recorded. exact (wf_recorded Hwf).
Qed.








(** On a hook that is mounted at most one removal timer is armed at any
    time, so at most one for any id. *)
Theorem at_most_one_timer_armed :
  forall (events : list Event) (toastId : string),
    List.length (pending (run mount events)) <= 1
    /\ List.length (filter (fun tm => String.eqb (target tm) toastId)
                           (pending (run mount events))) <= 1.
Proof.
  intros events toastId.
  assert (Hwf : wf (run mount events)) by apply wf_run, wf_mount.
  pose proof (wf_timers Hwf) as Hlen. split; [exact Hlen|].
  eapply Nat.le_trans; [apply filter_length_le|exact Hlen].
Qed.

(** ** Timers fire when they are due *)

Lemma schedule_due (h : Hook) (t : ToasterToast) :
  Forall (fun tm => due tm = clock h + TOAST_REMOVE_DELAY) (pending h) ->
  Forall (fun tm => due tm = clock (schedule h t) + TOAST_REMOVE_DELAY)
         (pending (schedule h t)).
Proof.
  intro Hdue. unfold schedule.
  destruct (isFalse (open t) && negb (has (id t) (toastTimeoutsRef h))); trivial.
  cbn. apply Forall_app. split; trivial. constructor; [reflexivity|constructor].
Qed.

Lemma rerender_due (h : Hook) :
  Forall (fun tm => In (target tm, timeoutId tm) (toastTimeoutsRef h)) (pending h) ->
  Forall (fun tm => due tm = clock (rerender h) + TOAST_REMOVE_DELAY)
         (pending (rerender h)).
Proof.
  intro Hrec. unfold rerender, effect.
  assert (Hstart : Forall (fun tm => due tm = clock (cleanup h) + TOAST_REMOVE_DELAY)
                          (pending (cleanup h)))
    by (rewrite (cleanup_clears_recorded h Hrec); constructor).
  revert Hstart. generalize (toasts (state (cleanup h))) as l.
  generalize (cleanup h) as h1. intros h1 l. revert h1.
  induction l as [|t l IH]; intros h1 Hdue; cbn [fold_left]; trivial.
  apply IH. now apply schedule_due.
Qed.

Lemma fireDue_settled (rounds : nat) (h : Hook) :
  Forall (fun tm => clock h < due tm) (pending h) -> fireDue rounds h = h.
Proof.
  intro Hlater. destruct rounds as [|rounds]; cbn [fireDue]; trivial.
  replace (find (fun tm => due tm <=? clock h) (pending h)) with (@None Timer);
    trivial.
  symmetry. induction Hlater as [|tm l Htm _ IH]; cbn [find]; trivial.
  replace (due tm <=? clock h) with false; trivial.
  symmetry. now apply Nat.leb_gt.
Qed.

Lemma later_than_now (h : Hook) :
  Forall (fun tm => due tm = clock h + TOAST_REMOVE_DELAY) (pending h) ->
  Forall (fun tm => clock h < due tm) (pending h).
Proof.
  apply Forall_impl. intros tm ->.
  assert (0 < TOAST_REMOVE_DELAY) by (vm_compute; lia). lia.
Qed.

(** In every state a mounted hook reaches the armed timers are due in the
    future: a timer is armed [TOAST_REMOVE_DELAY] ahead, and the millisecond in
    which it falls due does not end before it has fired (the rounds of
    [fireDue] are enough). *)
Theorem due_timers_have_fired :
  forall (events : list Event),
    Forall (fun tm => clock (run mount events) < due tm)
           (pending (run mount events)).
Proof.
  intro events.
  assert (Hinv : forall h, wf h ->
                   Forall (fun tm => clock h < due tm) (pending h) ->
                   wf (run h events)
                   /\ Forall (fun tm => clock (run h events) < due tm)
                             (pending (run h events))).
  { induction events as [|e events IH]; intros h Hwf Hlater; cbn [run fold_left].
    - now split.
    - apply IH; [now apply wf_step|].
      assert (Hdispatch : forall a, Forall (fun tm => clock (dispatch a h) < due tm)
                                           (pending (dispatch a h))).
      { intro a. unfold dispatch. apply later_than_now, rerender_due.
        exact (wf_recorded Hwf). }
      destruct e as [props|toastId|i props|]; cbn [step createToast snd].
      + unfold dispatch. apply later_than_now, rerender_due.
        exact (wf_recorded Hwf).
      + apply Hdispatch.
      + apply Hdispatch.
      + unfold tick. set (h' := with_clock (clock h + 1) h).
        assert (Hwf' : wf h') by now apply wf_with_clock.
        destruct (List.length (pending h')) as [|rounds] eqn:Hlen.
        * apply length_zero_iff_nil in Hlen. cbn [fireDue]. rewrite Hlen.
          constructor.
        * cbn [fireDue].
          destruct (find (fun tm => due tm <=? clock h') (pending h'))
            as [tm|] eqn:Hfind.
          -- apply find_some in Hfind. destruct Hfind as [Hin _].
             assert (Hfired : Forall (fun tm' => clock (fire tm h') < due tm')
                                     (pending (fire tm h'))).
             { unfold fire. apply later_than_now, rerender_due.
               exact (@expire_recorded h' tm (wf_recorded Hwf')
                                       (wf_one_entry Hwf') Hin). }
             now rewrite fireDue_settled.
          -- apply Forall_forall. intros tm Hin.
             pose proof (find_none _ _ Hfind tm Hin) as Hnot.
             now apply Nat.leb_gt in Hnot. }
  apply Hinv; [apply wf_mount|constructor].
Qed.

(** ** A dispatch while a timer is recorded *)

Lemma cleanup_over_log (i : string) (m : list (string * nat)) :
  forall h,
    exists calls,
      hostLog (fold_left (fun h' entry => clearTimeout (snd entry) h') m h)
      = hostLog h ++ calls
      /\ existsb (concerns i) calls = false.
Proof.
  induction m as [|entry m IH]; intro h; cbn [fold_left].
  - exists []. now rewrite app_nil_r.
  - destruct (IH (clearTimeout (snd entry) h)) as (calls & Hlog & Hq).
    exists (ClearTimeout (snd entry) :: calls). split.
    + rewrite Hlog. cbn [clearTimeout hostLog]. now rewrite <- app_assoc.
    + exact Hq.
Qed.

Lemma schedule_recorded (i : string) (h : Hook) (t : ToasterToast) :
  has i (toastTimeoutsRef h) = true ->
  has i (toastTimeoutsRef (schedule h t)) = true
  /\ exists calls,
       hostLog (schedule h t) = hostLog h ++ calls
       /\ existsb (concerns i) calls = false.
Proof.
  intro Hi. unfold schedule.
  destruct (isFalse (open t)); cbn [andb];
    [|split; trivial; exists []; now rewrite app_nil_r].
  destruct (has (id t) (toastTimeoutsRef h)) eqn:Hhas; cbn [negb];
    [split; trivial; exists []; now rewrite app_nil_r|].
  cbn. rewrite set_absent by exact Hhas. split.
  - unfold has in *. rewrite existsb_app, Hi. reflexivity.
  - exists [SetTimeout (nextTimeoutId h) (id t)]. split; trivial.
    cbn. rewrite orb_false_r. apply String.eqb_neq.
    intro Heq. rewrite Heq in Hhas. congruence.
Qed.

Lemma effect_over_recorded (i : string) (l : list ToasterToast) :
  forall h,
    has i (toastTimeoutsRef h) = true ->
    exists calls,
      hostLog (fold_left schedule l h) = hostLog h ++ calls
      /\ existsb (concerns i) calls = false.
Proof.
  induction l as [|t l IH]; intros h Hi; cbn [fold_left].
  - exists []. now rewrite app_nil_r.
  - destruct (@schedule_recorded i h t Hi) as (Hi' & calls & Hlog & Hq).
    destruct (IH _ Hi') as (calls' & Hlog' & Hq').
    exists (calls ++ calls'). split.
    + now rewrite Hlog', Hlog, app_assoc.
    + now rewrite existsb_app, Hq, Hq'.
Qed.

(** While a removal timer is armed for a toast, a dismissal (of that toast,
    of another or of all) arms no timer for it and fires none. *)
Theorem dismissal_while_armed_arms_nothing :
  forall (events : list Event) (toastId : string) (dismissed : option string),
    timerPending toastId (run mount events) = true ->
    exists calls,
      hostLog (step (run mount events) (Dismiss dismissed))
      = hostLog (run mount events) ++ calls
      /\ existsb (concerns toastId) calls = false.
Proof.
  intros events toastId dismissed Harmed.
  set (h := run mount events) in *.
  assert (Hwf : wf h) by apply wf_run, wf_mount.
  assert (Hrecorded : has toastId (toastTimeoutsRef h) = true).
  { unfold timerPending in Harmed. apply existsb_exists in Harmed.
    destruct Harmed as (tm & Hin & Heq). apply String.eqb_eq in Heq.
    pose proof (wf_recorded Hwf) as Hrec. rewrite Forall_forall in Hrec.
    specialize (Hrec tm Hin). rewrite Heq in Hrec.
    unfold has. apply existsb_exists. exists (toastId, timeoutId tm).
    split; trivial. apply String.eqb_refl. }
  cbn [step]. unfold dispatch, rerender, effect.
  set (mid := with_state _ h).
  destruct (cleanup_frame mid) as (_ & _ & _ & Hm & _).
  destruct (@cleanup_over_log toastId (toastTimeoutsRef mid) mid)
    as (calls & Hlog & Hq).
  destruct (@effect_over_recorded toastId (toasts (state (cleanup mid)))
                                  (cleanup mid))
    as (calls' & Hlog' & Hq').
  - now rewrite Hm.
  - exists (calls ++ calls'). split.
    + rewrite Hlog'. unfold cleanup. rewrite Hlog. now rewrite app_assoc.
    + now rewrite existsb_app, Hq, Hq'.
Qed.

Lemma dismissal_while_armed_arms_nothing_example :
  exists calls,
    hostLog (run mount [Toast pleaseEnterAWord; Dismiss None; Tick;
                        Dismiss (Some "1"%string)])
    = hostLog (run mount [Toast pleaseEnterAWord; Dismiss None; Tick]) ++ calls
    /\ existsb (concerns "1") calls = false.
Proof.
  apply (@dismissal_while_armed_arms_nothing
           [Toast pleaseEnterAWord; Dismiss None; Tick] "1"%string
           (Some "1"%string)).
  reflexivity.
Defined.

End Hook.

(** * Properties of the search handler *)

Section Page.
Import Js.
Import UseToast.
Import HomePage.

(** ** The history updater *)

Lemma recordSearch_unfold (w : string) (prev : list string) :
  recordSearch w prev
  = w :: firstn 4 (filter (fun x => negb (String.eqb x w)) prev).
Proof. reflexivity. Qed.

Lemma filter_other_absent (w : string) (l : list string) :
  ~ In w l -> filter (fun x => negb (String.eqb x w)) l = l.
Proof.
  induction l as [|x l IH]; cbn [filter]; trivial. intro Hnin.
  destruct (String.eqb_spec x w) as [->|_]; cbn [negb].
  - exfalso. apply Hnin. now left.
  - f_equal. apply IH. intro Hin. apply Hnin. now right.
Qed.

Lemma filter_other_is_remove (w : string) (l : list string) :
  filter (fun x => negb (String.eqb x w)) l = remove string_dec w l.
Proof.
  induction l as [|x l IH]; cbn [filter remove]; trivial.
  destruct (string_dec w x) as [<-|Hneq].
  - now rewrite String.eqb_refl.
  - destruct (String.eqb_spec x w) as [->|_]; [contradiction|].
    cbn [negb]. now f_equal.
Qed.

Lemma NoDup_firstn (X : Type) (n : nat) (l : list X) :
  NoDup l -> NoDup (firstn n l).
Proof.
  intro Hnd. rewrite <- (firstn_skipn n l) in Hnd.
  now apply NoDup_app_remove_r in Hnd.
Qed.

(** Cutting a duplicate-free list one entry further than needed before
    dropping a word changes nothing. *)
Lemma firstn_filter_other (w : string) (l : list string) :
  NoDup l ->
  forall n,
    firstn n (filter (fun x => negb (String.eqb x w)) (firstn (S n) l))
    = firstn n (filter (fun x => negb (String.eqb x w)) l).
Proof.
  induction 1 as [|x l Hx Hnd IH]; intro n.
  - reflexivity.
  - cbn [firstn filter].
    destruct (String.eqb_spec x w) as [->|Hneq]; cbn [negb].
    + rewrite !filter_other_absent; trivial.
      * rewrite firstn_firstn. now rewrite Nat.min_id.
      * intro Hin. apply Hx. revert Hin. clear.
        revert l. induction n as [|n IHn]; intros [|y l]; cbn; try tauto.
        intros [H|H]; auto.
    + destruct n as [|n]; [reflexivity|].
      cbn [firstn]. f_equal. apply IH.
Qed.

Lemma nodup_snoc (w : string) (words : list string) :
  nodup string_dec (words ++ [w])
  = filter (fun x => negb (String.eqb x w)) (nodup string_dec words) ++ [w].
Proof.
  induction words as [|x words IH]; [reflexivity|].
  cbn [app nodup].
  destruct (String.eqb_spec x w) as [->|Hneq].
  - destruct (in_dec string_dec w (words ++ [w])) as [_|Hnin].
    + rewrite IH. destruct (in_dec string_dec w words); cbn [filter]; trivial.
      now rewrite String.eqb_refl.
    + exfalso. apply Hnin. apply in_or_app. right. now left.
  - destruct (in_dec string_dec x (words ++ [w])) as [Hin|Hnin];
      destruct (in_dec string_dec x words) as [Hin'|Hnin']; rewrite IH; trivial.
    + exfalso. apply in_app_or in Hin. destruct Hin as [Hin|[Hin|[]]]; auto.
    + exfalso. apply Hnin. apply in_or_app. now left.
    + cbn [filter]. apply String.eqb_neq in Hneq. now rewrite Hneq.
Qed.

(** The stored history after the words [words] were recorded in turn. *)
Lemma recorded_is_recentFirst (words : list string) :
  fold_left (fun stored w => recordSearch w stored) words [] = recentFirst words.
Proof.
  induction words as [|w words IH] using rev_ind; [reflexivity|].
  rewrite fold_left_app. cbn [fold_left]. rewrite IH.
  unfold recentFirst. rewrite nodup_snoc, rev_app_distr. cbn [rev app].
  rewrite recordSearch_unfold, firstn_cons. f_equal.
  rewrite <- filter_rev.
  apply (@firstn_filter_other w (rev (nodup string_dec words))).
  apply NoDup_rev, NoDup_nodup.
Qed.

Lemma recentFirst_NoDup (words : list string) : NoDup (recentFirst words).
Proof. unfold recentFirst. apply NoDup_firstn, NoDup_rev, NoDup_nodup. Qed.

Lemma recordSearch_present (w : string) (stored : list string) :
  NoDup stored -> List.length stored <= 5 -> In w stored ->
  recordSearch w stored = w :: remove string_dec w stored.
Proof.
  intros Hnd Hlen Hin. rewrite recordSearch_unfold. f_equal.
  rewrite filter_other_is_remove. apply firstn_all2.
  pose proof (remove_length_lt string_dec stored w Hin). lia.
Qed.

(** ** Blank words *)

Lemma trimEnd_nonblank_head (c : ascii) (rest : string) :
  isWhiteSpace c = false -> trimEnd (String c rest) <> EmptyString.
Proof.
  intro Hc. cbn [trimEnd]. destruct (trimEnd rest); [now rewrite Hc|discriminate].
Qed.

(** [trim] returns the empty string exactly on the words made of white space
    only. *)
Lemma trim_empty_iff (w : string) : trim w = EmptyString <-> blank w = true.
Proof.
  unfold trim. induction w as [|c rest IH]; cbn [trimStart blank].
  - split; reflexivity.
  - destruct (isWhiteSpace c) eqn:Hc; cbn [andb]; [exact IH|].
    split; [|discriminate]. intro H. exfalso.
    now apply (@trimEnd_nonblank_head c rest Hc).
Qed.

(** ** The handler *)

Local Open Scope string_scope.

Lemma search_successful (r : Run) (query : string * Settled) :
  successful query = true ->
  history (home (search r query))
  = recordSearch (trim (fst query)) (history (home r)).
Proof.
  destruct query as [w settled]. unfold successful, search. cbn [fst snd].
  intro Hok. apply andb_true_iff in Hok. destruct Hok as [Hword Hfound].
  unfold handleSearch, bind, setWord, getWord. cbn [home word].
  rewrite Hword. cbn [negb].
  destruct settled as [analysisResult|error]; [|discriminate].
  unfold analyzeCollocations, setIsLoading. cbn [fst snd].
  destruct (found analysisResult) as [cs|]; [|discriminate].
  reflexivity.
Qed.

Lemma session_successful (queries : list (string * Settled)) :
  forall r,
    forallb successful queries = true ->
    history (home (session r queries))
    = fold_left (fun stored w => recordSearch w stored)
                (map (fun query => trim (fst query)) queries)
                (history (home r)).
Proof.
  induction queries as [|q queries IH]; intros r Hok; [reflexivity|].
  cbn [forallb] in Hok. apply andb_true_iff in Hok. destruct Hok as [Hq Hqs].
  cbn [session fold_left map].
  unfold session in IH. rewrite IH by exact Hqs.
  now rewrite search_successful.
Qed.

(** C7.  After any sequence of lookups that each succeed with at least one
    collocation for a word that is not blank, starting from the empty
    history: the stored history has at most five entries and no word twice
    (words are compared as they are, letter case included), and it is the list
    of the distinct words searched, latest search first, cut after five; one
    more such lookup of a word it holds puts that word in front and keeps the
    others in their order, once each. *)
Theorem history_bounded_distinct_recent_first :
  forall (queries : list (string * Settled)),
    forallb successful queries = true ->
    let stored := history (home (session initial queries)) in
    List.length stored <= 5
    /\ NoDup stored
    /\ stored = recentFirst (map (fun query => trim (fst query)) queries)
    /\ forall again : string * Settled,
         successful again = true ->
         In (trim (fst again)) stored ->
         history (home (search (session initial queries) again))
         = trim (fst again) :: remove string_dec (trim (fst again)) stored.
Proof.
  intros queries Hok stored.
  assert (Hstored : stored = recentFirst (map (fun query => trim (fst query)) queries)).
  { subst stored. rewrite session_successful by exact Hok.
    apply recorded_is_recentFirst. }
  assert (Hlen : List.length stored <= 5).
  { rewrite Hstored. unfold recentFirst. apply firstn_le_length. }
  assert (Hnd : NoDup stored) by (rewrite Hstored; apply recentFirst_NoDup).
  repeat split; trivial.
  intros again Hagain Hin.
  rewrite search_successful by exact Hagain.
  now apply recordSearch_present.
Qed.

Lemma history_bounded_distinct_recent_first_example :
  history (home (session initial [("quick", withCoffee); ("Strong", withCoffee);
                                  ("strong ", withCoffee)]))
  = ["strong"; "Strong"; "quick"]
  /\ history (home (search (session initial [("quick", withCoffee);
                                             ("Strong", withCoffee);
                                             ("strong ", withCoffee)])
                           (" quick", withCoffee)))
     = ["quick"; "strong"; "Strong"].
Proof.
  destruct (@history_bounded_distinct_recent_first
              [("quick", withCoffee); ("Strong", withCoffee);
               ("strong ", withCoffee)])
    as (_ & _ & Hstored & Hagain).
  - reflexivity.
  - split; [exact Hstored|].
    apply (Hagain (" quick", withCoffee)).
    + reflexivity.
    + right. right. left. reflexivity.
Defined.

(** C9.  When the word is empty once trimmed, the handler (in either
    version) sends nothing to the collocation service, passes exactly one
    payload, the validation error, to [toast], and leaves the component's
    state (word, collocations, history, loading flag) as it was. *)
Theorem blank_word_only_notifies :
  forall (r : Run) (settled : Settled),
    trim (word (home r)) = EmptyString ->
    snd (HomePage.handleSearch settled r)
    = {| home := home r;
         toasted := toasted r ++ [validationError];
         requests := requests r |}
    /\ snd (HomePageV2.handleSearch settled r)
       = {| home := home r;
            toasted := toasted r ++ [validationError];
            requests := requests r |}.
Proof.
  intros r settled Hblank.
  unfold HomePage.handleSearch, HomePageV2.handleSearch, bind, getWord.
  rewrite Hblank. split; reflexivity.
Qed.

Lemma blank_word_only_notifies_example :
  snd (HomePage.handleSearch withCoffee (snd (setWord "   " initial)))
  = {| home := {| word := "   "; collocations := []; history := [];
                  isLoading := false |};
       toasted := [validationError];
       requests := [] |}.
Proof.
  destruct (@blank_word_only_notifies (snd (setWord "   " initial)) withCoffee)
    as (Hfirst & _).
  - reflexivity.
  - exact Hfirst.
Defined.

(** What the first version does when the lookup fails: the destructive
    notification with the failure's message or the generic one, the displayed
    collocations emptied, the history kept, the loading flag cleared. *)
Lemma failed_lookup_first_version (r : Run) (error : Failure) :
  truthy (trim (word (home r))) = true ->
  snd (HomePage.handleSearch (Rejected error) r)
  = {| home := {| word := word (home r);
                  collocations := [];
                  history := history (home r);
                  isLoading := false |};
       toasted := toasted r ++ [lookupError error];
       requests := requests r ++ [trim (word (home r))] |}.
Proof.
  intro Hword. unfold HomePage.handleSearch, bind, getWord.
  rewrite Hword. reflexivity.
Qed.

(** What the second version does when the lookup fails: it notifies and
    clears the loading flag, and leaves the displayed collocations alone. *)
Lemma failed_lookup_second_version (r : Run) (error : Failure) :
  truthy (trim (word (home r))) = true ->
  snd (HomePageV2.handleSearch (Rejected error) r)
  = {| home := {| word := word (home r);
                  collocations := collocations (home r);
                  history := history (home r);
                  isLoading := false |};
       toasted :=
         toasted r
         ++ [{| payload_title := Some "Error";
                payload_description :=
                  Some (messageOr error "Failed to analyze collocations.");
                payload_action := None;
                payload_variant := Some "destructive" |}];
       requests := requests r ++ [word (home r)] |}.
Proof.
  intro Hword. unfold HomePageV2.handleSearch, bind, getWord.
  rewrite Hword. reflexivity.
Qed.

(** Past the validation guard every path of either version ends with the
    loading flag cleared. *)
Lemma loading_flag_cleared (r : Run) (settled : Settled) :
  truthy (trim (word (home r))) = true ->
  isLoading (home (snd (HomePage.handleSearch settled r))) = false
  /\ isLoading (home (snd (HomePageV2.handleSearch settled r))) = false.
Proof.
  intro Hword.
  unfold HomePage.handleSearch, HomePageV2.handleSearch, bind, getWord.
  rewrite Hword. cbn [negb].
  destruct settled as [analysisResult|error]; cbn.
  - destruct (found analysisResult); split; reflexivity.
  - split; reflexivity.
Qed.

Lemma failed_lookup_first_version_example :
  snd (HomePage.handleSearch (Rejected unavailable)
         (snd (setWord "strong" (session initial [("strong", withCoffee)]))))
  = {| home := {| word := "strong"; collocations := []; history := ["strong"];
                  isLoading := false |};
       toasted :=
         toasted (session initial [("strong", withCoffee)])
         ++ [{| payload_title := Some "Error";
                payload_description := Some "Service unavailable";
                payload_action := None;
                payload_variant := Some "destructive" |}];
       requests := ["strong"; "strong"] |}.
Proof.
  apply (@failed_lookup_first_version
           (snd (setWord "strong" (session initial [("strong", withCoffee)])))
           unavailable).
  reflexivity.
Defined.

Lemma loading_flag_cleared_example :
  isLoading (home (snd (HomePage.handleSearch (Fulfilled None)
                          (snd (setWord "strong" initial))))) = false
  /\ isLoading (home (snd (HomePageV2.handleSearch (Fulfilled None)
                             (snd (setWord "strong" initial))))) = false.
Proof.
  apply (@loading_flag_cleared (snd (setWord "strong" initial)) (Fulfilled None)).
  reflexivity.
Defined.

(** C8, at the input where the code departs from it.  With the collocations
    of "strong" on display, a lookup that is rejected with "Service
    unavailable" makes the first version show the message and empty the
    display; the second version shows the message and keeps the display. *)
Theorem second_version_keeps_results_on_failure :
  let typed := snd (setWord "strong" initial) in
  let shown := snd (HomePageV2.handleSearch withCoffee typed) in
  let failed := snd (HomePageV2.handleSearch (Rejected unavailable) shown) in
  let failedFirst := snd (HomePage.handleSearch (Rejected unavailable) shown) in
  collocations (home shown) = [coffee]
  /\ collocations (home failed) = [coffee]
  /\ history (home failed) = history (home shown)
  /\ isLoading (home failed) = false
  /\ map payload_description (skipn 1 (toasted failed)) = [Some "Service unavailable"]
  /\ collocations (home failedFirst) = []
  /\ toasted failedFirst = (toasted shown ++ [lookupError unavailable])%list.
Proof. cbv zeta. repeat split. Qed.

End Page.

(** * More on the toast hook *)

Section Lifecycle.
Import Js.
Import UseToast.
Import ToastLifecycle.

Lemma step_idCounter_exact (h : Hook) (e : Event) :
  idCounterRef (step h e)
  = if isToast e then idCounterRef h + 1 else idCounterRef h.
Proof.
  destruct e as [props|toastId|i props|]; cbn [step createToast snd isToast].
  - now rewrite dispatch_idCounter.
  - now rewrite dispatch_idCounter.
  - now rewrite dispatch_idCounter.
  - unfold tick. now rewrite fireDue_idCounter.
Qed.

Lemma handles_from (events : list Event) :
  forall h,
    handles h events
    = map toString (seq (idCounterRef h + 1)
                        (List.length (filter isToast events))).
Proof.
  induction events as [|e events IH]; intro h; [reflexivity|].
  destruct e as [props|toastId|i props|];
    cbn [handles filter isToast List.length seq map];
    rewrite IH, step_idCounter_exact; cbn [isToast]; trivial.
  cbn [createToast fst]. now rewrite (Nat.add_1_r (idCounterRef h + 1)).
Qed.

Lemma NoDup_map_toString (l : list nat) : NoDup l -> NoDup (map toString l).
Proof.
  induction 1 as [|n l Hn _ IH]; cbn [map]; constructor; trivial.
  intro Hin. apply in_map_iff in Hin. destruct Hin as (m & Heq & Hm).
  apply toString_inj in Heq. now subst m.
Qed.

(** The calls of [toast] on a mounted hook return the ids "1", "2", "3", ...
    in turn, whatever else happens in between: no id is handed out twice. *)
Theorem toast_ids_count_up :
  forall (events : list Event),
    handles mount events
    = map toString (seq 1 (List.length (filter isToast events)))
    /\ NoDup (handles mount events).
Proof.
  intro events. rewrite handles_from. split; [reflexivity|].
  apply NoDup_map_toString, seq_NoDup.
Qed.

Lemma cleanup_over_fired (m : list (string * nat)) :
  forall h,
    filter firedCall
           (hostLog (fold_left (fun h' entry => clearTimeout (snd entry) h') m h))
    = filter firedCall (hostLog h).
Proof.
  induction m as [|entry m IH]; intro h; cbn [fold_left]; trivial.
  rewrite IH. cbn [clearTimeout hostLog]. rewrite filter_app. cbn.
  apply app_nil_r.
Qed.

(** When the hook unmounts, in whatever state it is, no removal timer stays
    armed: however much time passes afterwards no callback runs and the
    state is not touched. *)
Theorem unmount_cancels_every_timer :
  forall (events : list Event) (n : nat),
    let h := run mount events in
    pending (unmount h) = []
    /\ state (elapse n (unmount h)) = state h
    /\ filter firedCall (hostLog (elapse n (unmount h)))
       = filter firedCall (hostLog h).
Proof.
  intros events n h.
  assert (Hwf : wf h) by apply wf_run, wf_mount.
  assert (Hp : pending (unmount h) = [])
    by (apply cleanup_clears_recorded; exact (wf_recorded Hwf)).
  destruct (@elapse_idle n (unmount h) Hp) as (Hs & _ & Hl).
  split; [exact Hp|]. split.
  - rewrite Hs. apply (cleanup_frame h).
  - rewrite Hl. apply cleanup_over_fired.
Qed.

(** After a call of [toast], in whatever state the hook was, the list holds
    the new toast alone, open, under the id the call returns, and no removal
    timer is armed: the timer of a toast dismissed before is cleared with
    it. *)
Theorem toast_replaces_list_and_timers :
  forall (events : list Event) (payload : ToastPayload),
    let h := run mount events in
    let shown := step h (Toast payload) in
    toasts (state shown) = [newToast (fst (createToast payload h)) payload]
    /\ open (newToast (fst (createToast payload h)) payload) = Some true
    /\ pending shown = [].
Proof.
  intros events payload h shown.
  assert (Hwf : wf h) by apply wf_run, wf_mount.
  destruct (@shown_facts h payload Hwf) as (Hlist & Hp & _).
  repeat split; trivial.
Qed.

(** DISMISS_TOAST keeps the length of the list, its order and every property
    of every toast but [open], which it sets to false on the toast of the
    given id, on all toasts when no id is given, and leaves alone on the
    others. *)
Theorem dismiss_changes_open_only :
  forall (state : State) (toastId : option string),
    Forall2 (fun t t' =>
               sameButOpen t t'
               /\ open t' = (if targeted toastId t then Some false else open t))
            (toasts state)
            (toasts (reducer state (DISMISS_TOAST toastId)))
    /\ Forall (fun t' => open t' = Some false)
              (toasts (reducer state (DISMISS_TOAST None))).
Proof.
  intros state toastId. cbn [reducer toasts]. split.
  - induction (toasts state) as [|t l IH]; cbn [map]; constructor; trivial.
    destruct (targeted toastId t); unfold sameButOpen; cbn; repeat split.
  - apply Forall_map. cbn [targeted].
    induction (toasts state) as [|t l IH]; constructor; trivial.
Qed.


Lemma schedule_targets (h : Hook) (t : ToasterToast) (l : list ToasterToast) :
  In t l ->
  Forall (fun tm => exists t', In t' l /\ id t' = target tm /\ open t' = Some false)
         (pending h) ->
  Forall (fun tm => exists t', In t' l /\ id t' = target tm /\ open t' = Some false)
         (pending (schedule h t)).
Proof.
  intros Hin Hp. unfold schedule.
  destruct (isFalse (open t)) eqn:Hopen; cbn [andb]; trivial.
  destruct (negb (has (id t) (toastTimeoutsRef h))); trivial.
  cbn. apply Forall_app. split; trivial. constructor; [|constructor].
  exists t. cbn. repeat split; trivial.
  destruct (open t) as [[|]|]; trivial; discriminate.
Qed.

Lemma effect_over_targets (all l : list ToasterToast) :
  forall h,
    incl l all ->
    Forall (fun tm => exists t, In t all /\ id t = target tm /\ open t = Some false)
           (pending h) ->
    Forall (fun tm => exists t, In t all /\ id t = target tm /\ open t = Some false)
           (pending (fold_left schedule l h)).
Proof.
  induction l as [|t l IH]; intros h Hincl Hp; cbn [fold_left]; trivial.
  apply IH.
  - intros x Hx. apply Hincl. now right.
  - apply schedule_targets; trivial. apply Hincl. now left.
Qed.

Lemma rerender_targets (h : Hook) :
  Forall (fun tm => In (target tm, timeoutId tm) (toastTimeoutsRef h)) (pending h) ->
  Forall (fun tm => exists t, In t (toasts (state (rerender h)))
                              /\ id t = target tm /\ open t = Some false)
         (pending (rerender h)).
Proof.
  intro Hrec. rewrite (proj1 (rerender_frame h)).
  rewrite <- (proj1 (cleanup_frame h)).
  unfold rerender, effect.
  apply effect_over_targets; [apply incl_refl|].
  rewrite (cleanup_clears_recorded h Hrec). constructor.
Qed.

(** In every state a mounted hook reaches, each armed removal timer is for a
    toast that is in the list with [open = false]: a timer never removes a
    toast that is open. *)
Theorem timers_target_closed_toasts :
  forall (events : list Event),
    Forall (fun tm => exists t, In t (toasts (state (run mount events)))
                                /\ id t = target tm /\ open t = Some false)
           (pending (run mount events)).
Proof.
  intro events.
  assert (Hinv : forall h, wf h ->
            Forall (fun tm => exists t, In t (toasts (state h))
                                        /\ id t = target tm /\ open t = Some false)
                   (pending h) ->
            Forall (fun tm => exists t, In t (toasts (state (run h events)))
                                        /\ id t = target tm /\ open t = Some false)
                   (pending (run h events))).
  { induction events as [|e events IH]; intros h Hwf Hp; cbn [run fold_left]; trivial.
    apply IH; [now apply wf_step|].
    destruct e as [props|toastId|i props|]; cbn [step createToast snd];
      try (unfold dispatch; apply rerender_targets; exact (wf_recorded Hwf)).
    unfold tick. set (h' := with_clock (clock h + 1) h).
    assert (Hwf' : wf h') by now apply wf_with_clock.
    destruct (List.length (pending h')) as [|rounds]; cbn [fireDue]; trivial.
    destruct (find (fun tm => due tm <=? clock h') (pending h'))
      as [tm|] eqn:Hfind; trivial.
    apply find_some in Hfind. destruct Hfind as [Hin _].
    assert (Hrec : Forall (fun tm' => In (target tm', timeoutId tm')
                                         (toastTimeoutsRef (expire tm h')))
                          (pending (expire tm h')))
      by exact (@expire_recorded h' tm (wf_recorded Hwf') (wf_one_entry Hwf') Hin).
    rewrite fireDue_settled.
    - unfold fire. now apply rerender_targets.
    - unfold fire. now apply later_than_now, rerender_due. }
  apply Hinv; [apply wf_mount|constructor].
Qed.

End Lifecycle.

(** * More on the page *)

Section Events.
Import Js.
Import UseToast.
Import HomePage.
Import HomeEvents.

(** ** Trimming twice *)

Lemma trimStart_kept (c : ascii) (rest : string) :
  isWhiteSpace c = false -> trimStart (String c rest) = String c rest.
Proof. intro Hc. cbn [trimStart]. now rewrite Hc. Qed.

Lemma trimStart_shape (s : string) :
  trimStart s = EmptyString
  \/ exists c rest, trimStart s = String c rest /\ isWhiteSpace c = false.
Proof.
  induction s as [|c rest IH]; cbn [trimStart]; [now left|].
  destruct (isWhiteSpace c) eqn:Hc; trivial.
  right. now exists c, rest.
Qed.

Lemma trimEnd_head (c : ascii) (rest : string) :
  isWhiteSpace c = false -> exists kept, trimEnd (String c rest) = String c kept.
Proof.
  intro Hc. cbn [trimEnd]. destruct (trimEnd rest) as [|c' kept'].
  - rewrite Hc. now exists EmptyString.
  - now exists (String c' kept').
Qed.

Lemma trimEnd_twice (s : string) : trimEnd (trimEnd s) = trimEnd s.
Proof.
  induction s as [|c rest IH]; [reflexivity|].
  cbn [trimEnd]. destruct (trimEnd rest) as [|c' kept'] eqn:Hrest.
  - destruct (isWhiteSpace c) eqn:Hc; [reflexivity|].
    cbn [trimEnd]. now rewrite Hc.
  - change (trimEnd (String c (String c' kept')) = String c (String c' kept')).
    cbn [trimEnd]. cbn [trimEnd] in IH.
    destruct (trimEnd kept') as [|c2 kept2].
    + destruct (isWhiteSpace c'); [discriminate|]. now rewrite IH.
    + now rewrite IH.
Qed.

Lemma trim_twice (s : string) : trim (trim s) = trim s.
Proof.
  unfold trim. destruct (trimStart_shape s) as [Hs|(c & rest & Hs & Hc)]; rewrite Hs.
  - reflexivity.
  - destruct (@trimEnd_head c rest Hc) as (kept & Hkept).
    rewrite Hkept, (@trimStart_kept c kept Hc), <- Hkept. apply trimEnd_twice.
Qed.

Lemma trimmed_is_tidy (w : string) : truthy (trim w) = true -> tidy (trim w).
Proof. intro Hw. split; [apply trim_twice|exact Hw]. Qed.

(** ** The two halves of the handler *)

Lemma handleSearch_in_two (settled : Settled) (r : Run) :
  handleSearch settled r
  = let (waiting, r') := beginSearch r in
    match waiting with
    | Some trimmedWord => finishSearch trimmedWord settled r'
    | None => (tt, r')
    end.
Proof.
  unfold handleSearch, beginSearch, finishSearch, bind, getWord.
  destruct (truthy (trim (word (home r)))); cbn [negb]; [|reflexivity].
  destruct settled as [analysisResult|error]; cbn.
  - destruct (found analysisResult); reflexivity.
  - reflexivity.
Qed.

Lemma In_recordSearch (w x : string) (prev : list string) :
  In x (recordSearch w prev) -> x = w \/ In x prev.
Proof.
  unfold recordSearch. intro Hin. apply In_slice_from_0 in Hin.
  destruct Hin as [<-|Hin]; [now left|].
  right. now apply filter_In in Hin.
Qed.

Lemma recordSearch_distinct (w : string) (prev : list string) :
  NoDup prev -> NoDup (recordSearch w prev).
Proof.
  intro Hnd. rewrite recordSearch_unfold. constructor.
  - intro Hin.
    assert (Hfull : In w (filter (fun x => negb (String.eqb x w)) prev)).
    { revert Hin. generalize (filter (fun x => negb (String.eqb x w)) prev).
      intro l. generalize 4. intro n. revert l.
      induction n as [|n IH]; intros [|y l]; cbn; try tauto.
      intros [H|H]; auto. }
    apply filter_In in Hfull. destruct Hfull as [_ Hneq].
    now rewrite String.eqb_refl in Hneq.
  - apply NoDup_firstn. now apply NoDup_filter.
Qed.

Lemma recordSearch_bound (w : string) (prev : list string) :
  List.length (recordSearch w prev) <= 5.
Proof.
  unfold recordSearch, slice. rewrite Nat.sub_0_r. cbn [skipn].
  apply firstn_le_length.
Qed.

Lemma finishSearch_history (trimmedWord : string) (outcome : Settled) (r : Run) :
  (history (home (snd (finishSearch trimmedWord outcome r))) = history (home r)
   \/ history (home (snd (finishSearch trimmedWord outcome r)))
      = recordSearch trimmedWord (history (home r)))
  /\ requests (snd (finishSearch trimmedWord outcome r)) = requests r.
Proof.
  unfold finishSearch, bind.
  destruct outcome as [analysisResult|error]; cbn.
  - destruct (found analysisResult); cbn; auto.
  - auto.
Qed.

Lemma orderly_ui (p : Page) (e : UiEvent) : orderly p -> orderly (ui p e).
Proof.
  intros [Hnd Hlen Hhist Hreq Hwait Hsent].
  destruct e as [text| |index|index outcome]; cbn [ui].
  - constructor; trivial.
  - unfold beginSearch, bind, getWord.
    destruct (truthy (trim (word (home (run p))))) eqn:Hword; cbn [negb].
    + constructor; cbn; trivial.
      * apply Forall_app. split; trivial. constructor; [|constructor].
        now apply trimmed_is_tidy.
      * intros x Hx. apply in_app_or in Hx. apply in_or_app.
        destruct Hx as [Hx|Hx]; [left; now apply Hwait|now right].
      * intros x Hx. apply in_or_app. left. now apply Hsent.
    + constructor; trivial.
  - destruct (nth_error (history (home (run p))) index); constructor; trivial.
  - destruct (nth_error (inFlight p) index) as [trimmedWord|] eqn:Hnth;
      [|constructor; trivial].
    assert (Hin : In trimmedWord (inFlight p)) by (eapply nth_error_In; eauto).
    assert (Hasked : In trimmedWord (requests (run p))) by now apply Hwait.
    assert (Htidy : tidy trimmedWord).
    { rewrite Forall_forall in Hreq. now apply Hreq. }
    destruct (finishSearch_history trimmedWord outcome (run p)) as ([Hh|Hh] & Hr).
    + constructor; cbn [run inFlight]; rewrite ?Hh, ?Hr; trivial.
      intros x Hx. apply Hwait. unfold without in Hx.
      apply in_app_or in Hx. destruct Hx as [Hx|Hx].
      * rewrite <- (firstn_skipn index (inFlight p)). apply in_or_app. now left.
      * rewrite <- (firstn_skipn (S index) (inFlight p)). apply in_or_app. now right.
    + constructor; cbn [run inFlight]; rewrite ?Hh, ?Hr.
      * now apply recordSearch_distinct.
      * apply recordSearch_bound.
      * apply Forall_forall. intros x Hx. apply In_recordSearch in Hx.
        destruct Hx as [->|Hx]; trivial.
        rewrite Forall_forall in Hhist. now apply Hhist.
      * trivial.
      * intros x Hx. apply Hwait. unfold without in Hx.
        apply in_app_or in Hx. destruct Hx as [Hx|Hx].
        -- rewrite <- (firstn_skipn index (inFlight p)). apply in_or_app. now left.
        -- rewrite <- (firstn_skipn (S index) (inFlight p)). apply in_or_app.
           now right.
      * intros x Hx. apply In_recordSearch in Hx.
        destruct Hx as [->|Hx]; trivial. now apply Hsent.
Qed.

Lemma orderly_browse (events : list UiEvent) :
  forall p, orderly p -> orderly (browse p events).
Proof.
  induction events as [|e events IH]; intros p Hp; cbn [browse fold_left]; trivial.
  apply IH. now apply orderly_ui.
Qed.

Lemma orderly_opened : orderly opened.
Proof.
  constructor; cbn.
  - constructor.
  - lia.
  - constructor.
  - constructor.
  - intros x [].
  - intros x [].
Qed.

(** A submission that settles before anything else happens is one run of
    [handleSearch]. *)
Lemma submit_then_settle (p : Page) (settled : Settled) :
  browse p [Submit; Settles (List.length (inFlight p)) settled]
  = mkPage (snd (handleSearch settled (run p))) (inFlight p).
Proof.
  cbn [browse fold_left]. rewrite handleSearch_in_two. cbn [ui].
  destruct (beginSearch (run p)) as [[trimmedWord|] r] eqn:Hbegin; cbn [ui run inFlight].
  - rewrite nth_error_app2, Nat.sub_diag by apply Nat.le_refl. cbn [nth_error].
    f_equal. unfold without.
    rewrite firstn_app, Nat.sub_diag, firstn_all, firstn_0, app_nil_r.
    rewrite skipn_all2; [apply app_nil_r|]. rewrite length_app. cbn. lia.
  - replace (nth_error (inFlight p) (List.length (inFlight p))) with (@None string);
      [reflexivity|].
    symmetry. apply nth_error_None. apply Nat.le_refl.
Qed.

(** Whatever the user types, submits and clicks, and in whatever order and
    with whatever outcome the lookups in flight settle (the first version):
    the history never holds a word twice nor more than five words; every word
    stored, and every word sent to the service, is trimmed and not empty; and
    every stored word was sent to the service. *)
Theorem history_orderly_under_any_events :
  forall (events : list UiEvent),
    let p := browse opened events in
    NoDup (history (home (run p)))
    /\ List.length (history (home (run p))) <= 5
    /\ Forall tidy (history (home (run p)))
    /\ Forall tidy (requests (run p))
    /\ incl (history (home (run p))) (requests (run p)).
Proof.
  intros events p.
  destruct (@orderly_browse events opened orderly_opened)
    as [Hnd Hlen Hhist Hreq _ Hsent].
  repeat split; trivial.
Qed.

(** Every call of [handleSearch], in either version and whatever the word
    and the outcome of the lookup, passes exactly one payload to [toast] and
    sends at most one request. *)
Theorem one_notification_per_search :
  forall (r : Run) (settled : Settled),
    (exists payload,
        toasted (snd (HomePage.handleSearch settled r)) = toasted r ++ [payload])
    /\ (exists payload,
           toasted (snd (HomePageV2.handleSearch settled r)) = toasted r ++ [payload])
    /\ List.length (requests (snd (HomePage.handleSearch settled r)))
       <= List.length (requests r) + 1
    /\ List.length (requests (snd (HomePageV2.handleSearch settled r)))
       <= List.length (requests r) + 1.
Proof.
  intros r settled.
  unfold HomePage.handleSearch, HomePageV2.handleSearch, bind, getWord.
  destruct (truthy (trim (word (home r)))); cbn [negb].
  - destruct settled as [analysisResult|error]; cbn.
    + destruct (found analysisResult); cbn; rewrite ?length_app; cbn;
        repeat split; eauto; lia.
    + rewrite ?length_app; cbn; repeat split; eauto; lia.
  - cbn. repeat split; eauto; lia.
Qed.

Local Open Scope string_scope.

(** A lookup that answers with at least one collocation for a word that is
    not blank (first version): the collocations are displayed, the trimmed
    word is recorded in the history, the success notification names it, the
    trimmed word is what was sent (the word typed stays in the input), and
    the loading flag is cleared. *)
Theorem answered_lookup_is_shown_and_recorded :
  forall (r : Run) (c : Collocation) (cs : list Collocation),
    truthy (trim (word (home r))) = true ->
    snd (HomePage.handleSearch
           (Fulfilled (Some {| output_collocations := Some (c :: cs) |})) r)
    = {| home := {| word := word (home r);
                    collocations := c :: cs;
                    history := recordSearch (trim (word (home r))) (history (home r));
                    isLoading := false |};
         toasted :=
           toasted r
           ++ [{| payload_title := Some "Success";
                  payload_description :=
                    Some ("Collocations found for "
                          ++ quoted (trim (word (home r))) ++ ".");
                  payload_action := None;
                  payload_variant := None |}];
         requests := requests r ++ [trim (word (home r))] |}.
Proof.
  intros r c cs Hword. unfold HomePage.handleSearch, bind, getWord.
  rewrite Hword. reflexivity.
Qed.

Lemma answered_lookup_is_shown_and_recorded_example :
  home (snd (HomePage.handleSearch withCoffee (snd (setWord " strong " initial))))
  = {| word := " strong "; collocations := [coffee]; history := ["strong"];
       isLoading := false |}.
Proof.
  exact (f_equal home
           (@answered_lookup_is_shown_and_recorded
              (snd (setWord " strong " initial)) coffee [] eq_refl)).
Defined.

(** A lookup that answers with no collocations (a missing result, a missing
    list or an empty one) for a word that is not blank: in both versions the
    display is emptied, the history is left as it was, exactly one
    notification titled "No Collocations Found" is passed to [toast], and the
    loading flag is cleared. *)
Theorem empty_answer_clears_display_keeps_history :
  forall (r : Run) (analysisResult : option AnalyzeCollocationsOutput),
    truthy (trim (word (home r))) = true ->
    found analysisResult = None ->
    let first := snd (HomePage.handleSearch (Fulfilled analysisResult) r) in
    let second := snd (HomePageV2.handleSearch (Fulfilled analysisResult) r) in
    home first = {| word := word (home r); collocations := [];
                    history := history (home r); isLoading := false |}
    /\ home second = home first
    /\ map payload_title (skipn (List.length (toasted r)) (toasted first))
       = [Some "No Collocations Found"]
    /\ map payload_title (skipn (List.length (toasted r)) (toasted second))
       = [Some "No Collocations Found"].
Proof.
  intros r analysisResult Hword Hnone first second. subst first second.
  unfold HomePage.handleSearch, HomePageV2.handleSearch, bind, getWord.
  rewrite Hword. cbn [negb]. unfold analyzeCollocations, setIsLoading.
  cbn [fst snd]. rewrite Hnone. cbn.
  repeat split; rewrite skipn_app, Nat.sub_diag, skipn_all; reflexivity.
Qed.

Lemma empty_answer_clears_display_keeps_history_example :
  home (snd (HomePage.handleSearch
               (Fulfilled (Some {| output_collocations := Some [] |}))
               (snd (setWord "quick" (session initial [("strong", withCoffee)])))))
  = {| word := "quick"; collocations := []; history := ["strong"];
       isLoading := false |}.
Proof.
  destruct (@empty_answer_clears_display_keeps_history
              (snd (setWord "quick" (session initial [("strong", withCoffee)])))
              (Some {| output_collocations := Some [] |}))
    as (Hhome & _).
  - reflexivity.
  - reflexivity.
  - exact Hhome.
Defined.

(** After any events on the page, clicking an entry of the history and
    searching it again with success puts that word in front of the history
    and leaves the other words in their order: the stored word is the word
    the handler records, since stored words are trimmed already. *)
Theorem clicked_word_moves_to_front :
  forall (events : list UiEvent) (index : nat) (w : string)
         (c : Collocation) (cs : list Collocation),
    let p := browse opened events in
    nth_error (history (home (run p))) index = Some w ->
    history
      (home (snd ((handleHistoryClick w ;;
                   HomePage.handleSearch
                     (Fulfilled (Some {| output_collocations := Some (c :: cs) |})))
                    (run p))))
    = w :: remove string_dec w (history (home (run p))).
Proof.
  intros events index w c cs p Hnth.
  destruct (@orderly_browse events opened orderly_opened)
    as [Hnd Hlen Hhist _ _ _].
  fold p in Hnd, Hlen, Hhist.
  assert (Hin : In w (history (home (run p)))) by (eapply nth_error_In; eauto).
  assert (Htidy : tidy w) by (rewrite Forall_forall in Hhist; now apply Hhist).
  destruct Htidy as [Htrim Hword].
  change (history (home (search (run p)
            (w, Fulfilled (Some {| output_collocations := Some (c :: cs) |}))))
          = w :: remove string_dec w (history (home (run p)))).
  rewrite search_successful.
  - cbn [fst]. rewrite Htrim. now apply recordSearch_present.
  - unfold successful. cbn [fst snd found]. now rewrite Htrim, Hword.
Qed.

Lemma clicked_word_moves_to_front_example :
  history
    (home (snd ((handleHistoryClick "quick" ;; HomePage.handleSearch withCoffee)
                  (run (browse opened
                          [Typing "quick"; Submit; Typing " strong"; Submit;
                           Settles 1 withCoffee; Settles 0 withCoffee])))))
  = ["quick"; "strong"].
Proof.
  apply (@clicked_word_moves_to_front
           [Typing "quick"; Submit; Typing " strong"; Submit;
            Settles 1 withCoffee; Settles 0 withCoffee]
           0 "quick" coffee []).
  reflexivity.
Defined.

End Events.

(** * The persisted history *)

Section Storage.
Import Js.
Import HomePage.
Import UseLocalStorage.

Local Open Scope string_scope.

Lemma saveEffect_value (stringify : list string -> string)
      (fits : string -> bool) (st : Store) :
  storedValue (saveEffect stringify fits st) = storedValue st.
Proof. unfold saveEffect. now destruct (fits _). Qed.

Lemma updates_value (stringify : list string -> string) (fits : string -> bool)
      (updaters : list (list string -> list string)) :
  forall st,
    storedValue (updates stringify fits st updaters)
    = fold_left (fun value updater => updater value) updaters (storedValue st).
Proof.
  induction updaters as [|u updaters IH]; intro st; [reflexivity|].
  cbn [updates fold_left]. unfold updates in IH. rewrite IH.
  unfold setStoredValue. now rewrite saveEffect_value.
Qed.

Lemma updates_saved (stringify : list string -> string)
      (updaters : list (list string -> list string)) :
  forall st,
    slot st = Some (stringify (storedValue st)) ->
    slot (updates stringify (fun _ => true) st updaters)
    = Some (stringify (storedValue (updates stringify (fun _ => true) st updaters)))
    /\ errors (updates stringify (fun _ => true) st updaters) = errors st.
Proof.
  induction updaters as [|u updaters IH]; intros st Hst; [now split|].
  cbn [updates fold_left]. unfold updates in IH.
  destruct (IH (setStoredValue stringify (fun _ => true) u st)) as (Hslot & Herr).
  - reflexivity.
  - now split.
Qed.

Lemma mountOver_saved (stringify : list string -> string)
      (parse : string -> option (list string))
      (initialValue : list string) (found : option string) :
  slot (mountOver stringify parse (fun _ => true) initialValue found)
  = Some (stringify (storedValue
                       (mountOver stringify parse (fun _ => true)
                                  initialValue found))).
Proof.
  unfold mountOver, loadEffect. cbn [slot].
  destruct found as [item|]; [|reflexivity].
  destruct (truthy item); [|reflexivity].
  destruct (parse item); reflexivity.
Qed.

(** Mounting over a slot that is missing or holds the empty text keeps the
    initial value; the initial value is what the hook then writes to the
    slot, and nothing is reported, when the store accepts the text. *)
Theorem nothing_stored_keeps_initial_value :
  forall (stringify : list string -> string)
         (parse : string -> option (list string)) (fits : string -> bool)
         (initialValue : list string) (found : option string),
    found = None \/ found = Some EmptyString ->
    fits (stringify initialValue) = true ->
    mountOver stringify parse fits initialValue found
    = {| storedValue := initialValue;
         slot := Some (stringify initialValue);
         errors := [] |}.
Proof.
  intros stringify parse fits initialValue found [->| ->] Hfits;
    unfold mountOver, loadEffect, saveEffect; cbn; now rewrite Hfits.
Qed.

(** Mounting over a slot whose text [JSON.parse] rejects keeps the initial
    value, reports the read error once, and overwrites the text with the
    initial value (when the store accepts it): what was stored is lost. *)
Theorem unreadable_slot_is_overwritten :
  forall (stringify : list string -> string)
         (parse : string -> option (list string)) (fits : string -> bool)
         (initialValue : list string) (item : string),
    truthy item = true ->
    parse item = None ->
    fits (stringify initialValue) = true ->
    mountOver stringify parse fits initialValue (Some item)
    = {| storedValue := initialValue;
         slot := Some (stringify initialValue);
         errors := ["Error reading from localStorage:"] |}.
Proof.
  intros stringify parse fits initialValue item Hitem Hparse Hfits.
  unfold mountOver, loadEffect. cbn [slot].
  rewrite Hitem, Hparse. unfold saveEffect. cbn. now rewrite Hfits.
Qed.

(** While the store accepts every text, the slot holds the text of the
    current value after mounting and after every update, and no write error
    is reported: what is in the slot is never behind the state. *)
Theorem slot_follows_the_value :
  forall (stringify : list string -> string)
         (parse : string -> option (list string))
         (initialValue : list string) (found : option string)
         (updaters : list (list string -> list string)),
    let st := updates stringify (fun _ => true)
                      (mountOver stringify parse (fun _ => true) initialValue found)
                      updaters in
    slot st = Some (stringify (storedValue st))
    /\ ~ In "Error writing to localStorage:" (errors st).
Proof.
  intros stringify parse initialValue found updaters st. subst st.
  destruct (@updates_saved stringify updaters
              (mountOver stringify parse (fun _ => true) initialValue found)
              (mountOver_saved stringify parse initialValue found))
    as (Hslot & Herr).
  split; [exact Hslot|]. rewrite Herr.
  unfold mountOver, loadEffect. cbn [slot].
  destruct found as [item|]; [|intros []].
  destruct (truthy item); [|intros []].
  destruct (parse item); cbn; [intros []|].
  intros [H|[]]. discriminate H.
Qed.

(** Reloading the page restores the value: when [JSON.parse] reads back the
    text [JSON.stringify] wrote for the value the hook holds, and that text is
    not empty, a hook mounted over the slot the first one left holds that
    value, whatever its own initial value. *)
Theorem reload_restores_the_value :
  forall (stringify : list string -> string)
         (parse : string -> option (list string))
         (initialValue again : list string) (found : option string)
         (updaters : list (list string -> list string)),
    let st := updates stringify (fun _ => true)
                      (mountOver stringify parse (fun _ => true) initialValue found)
                      updaters in
    truthy (stringify (storedValue st)) = true ->
    parse (stringify (storedValue st)) = Some (storedValue st) ->
    mountOver stringify parse (fun _ => true) again (slot st)
    = {| storedValue := storedValue st; slot := slot st; errors := [] |}.
Proof.
  intros stringify parse initialValue again found updaters st Htext Hparse.
  destruct (@updates_saved stringify updaters
              (mountOver stringify parse (fun _ => true) initialValue found)
              (mountOver_saved stringify parse initialValue found))
    as (Hslot & _).
  fold st in Hslot. rewrite Hslot.
  unfold mountOver, loadEffect. cbn [slot].
  rewrite Htext, Hparse. reflexivity.
Qed.

(** The history the page keeps through [useLocalStorage("searchHistory", [])]:
    starting with nothing stored, after the words [words] were recorded in
    turn by successful lookups the state and the slot both hold the distinct
    words, latest first, cut after five. *)
Theorem persisted_history_is_recent_first :
  forall (stringify : list string -> string)
         (parse : string -> option (list string)) (words : list string),
    let st := updates stringify (fun _ => true)
                      (mountOver stringify parse (fun _ => true) [] None)
                      (map recordSearch words) in
    storedValue st = recentFirst words
    /\ slot st = Some (stringify (recentFirst words)).
Proof.
  intros stringify parse words st.
  assert (Hvalue : storedValue st = recentFirst words).
  { subst st. rewrite updates_value. cbn [mountOver loadEffect slot storedValue].
    rewrite <- recorded_is_recentFirst.
    generalize (@nil string) as start. clear.
    induction words as [|w words IH]; intro start; [reflexivity|].
    cbn [map fold_left]. apply IH. }
  split; [exact Hvalue|].
  rewrite <- Hvalue.
  apply (@updates_saved stringify (map recordSearch words)
           (mountOver stringify parse (fun _ => true) [] None)
           (mountOver_saved stringify parse [] None)).
Qed.

End Storage.

Lemma nothing_stored_keeps_initial_value_example :
  UseLocalStorage.mountOver UseLocalStorage.sampleStringify
                            UseLocalStorage.sampleParse (fun _ => true) [] None
  = UseLocalStorage.mkStore [] (Some EmptyString) [].
Proof.
  apply (@nothing_stored_keeps_initial_value
           UseLocalStorage.sampleStringify UseLocalStorage.sampleParse
           (fun _ => true) [] None).
  - left. reflexivity.
  - reflexivity.
Defined.

Lemma unreadable_slot_is_overwritten_example :
  UseLocalStorage.mountOver UseLocalStorage.sampleStringify (fun _ => None)
                            (fun _ => true) [] (Some "[oops"%string)
  = UseLocalStorage.mkStore [] (Some EmptyString)
                            ["Error reading from localStorage:"%string].
Proof.
  apply (@unreadable_slot_is_overwritten
           UseLocalStorage.sampleStringify (fun _ => None) (fun _ => true)
           [] "[oops"%string).
  - reflexivity.
  - reflexivity.
  - reflexivity.
Defined.

Lemma reload_restores_the_value_example :
  UseLocalStorage.storedValue
    (UseLocalStorage.mountOver
       UseLocalStorage.sampleStringify UseLocalStorage.sampleParse (fun _ => true)
       []
       (UseLocalStorage.slot
          (UseLocalStorage.updates
             UseLocalStorage.sampleStringify (fun _ => true)
             (UseLocalStorage.mountOver
                UseLocalStorage.sampleStringify UseLocalStorage.sampleParse
                (fun _ => true) [] None)
             [HomePage.recordSearch "strong"%string])))
  = ["strong"%string].
Proof.
  exact (f_equal (@UseLocalStorage.storedValue)
           (@reload_restores_the_value
              UseLocalStorage.sampleStringify UseLocalStorage.sampleParse
              [] [] None [HomePage.recordSearch "strong"%string]
              eq_refl eq_refl)).
Defined.
